(** * LexiMind: the view controller, the AI gateway and the story renderer

    A shallow embedding of [src/App.tsx], [src/services/gemini.ts] and the
    type declarations of the repository, with the properties of the
    orchestration layer proved over it.

    Conventions of the embedding:
    - a JavaScript string is the list of its UTF-16 code units;
    - a React state cell is a field of [AppState]; a call of one of its
      setters is an [update], carrying either a value or an updater function
      exactly as [setX(v)] and [setX(prev => ...)] do;
    - an event handler is a computation in the monad [M], which records the
      setter calls, the requests sent to the generative service and the
      console output in program order, and which threads exceptions so that
      [try]/[catch]/[finally] can be written as in the source;
    - the outcome of every call of the external service is an argument of the
      function that issues it. *)

From Stdlib Require Import ZArith QArith String Ascii DecimalString.
From stdpp Require Import gmap list sorting.
From Equations Require Import Equations.
From Equations.Prop Require Import Logic.

Set Default Proof Using "Type".
Local Open Scope nat_scope.

(** ** JavaScript strings *)

Module JsString.

(** A string is a sequence of UTF-16 code units. *)
Abbreviation jsstring := (list N).

(** A literal of the source, written as a Rocq string of ASCII characters. *)
Definition str (s : string) : jsstring :=
  List.map N_of_ascii (list_ascii_of_string s).

(** WhiteSpace and LineTerminator code points of ECMAScript, the characters
    that [String.prototype.trim] removes. *)
Definition is_white_space (c : N) : bool :=
  ((9 <=? c) && (c <=? 13) || (c =? 32) || (c =? 160) || (c =? 5760)
   || (8192 <=? c) && (c <=? 8202) || (c =? 8232) || (c =? 8233)
   || (c =? 8239) || (c =? 8287) || (c =? 12288) || (c =? 65279))%N.

(** LineTerminator: the characters that [.] of a regular expression without
    the [s] flag refuses. *)
Definition is_line_terminator (c : N) : bool :=
  ((c =? 10) || (c =? 13) || (c =? 8232) || (c =? 8233))%N.

Fixpoint trimStart (s : jsstring) : jsstring :=
  match s with
  | c :: s' => if is_white_space c then trimStart s' else s
  | [] => []
  end.

Definition trimEnd (s : jsstring) : jsstring := rev (trimStart (rev s)).

Definition trim (s : jsstring) : jsstring := trimEnd (trimStart s).

(** Truthiness of a string: every string but the empty one. *)
Definition truthy (s : jsstring) : bool :=
  match s with [] => false | _ :: _ => true end.

Fixpoint startsWith (p s : jsstring) : bool :=
  match p, s with
  | [], _ => true
  | a :: p', b :: s' => (a =? b)%N && startsWith p' s'
  | _ :: _, [] => false
  end.

Definition endsWith (p s : jsstring) : bool := startsWith (rev p) (rev s).

(** [s.slice(a, -b)]: from index [a], clamped to the length, up to [b]
    characters before the end; empty when the bounds cross. *)
Definition slice_from_to_end (a b : nat) (s : jsstring) : jsstring :=
  take (length s - b - a) (drop a s).

(** [xs.join(sep)] on an array of strings. *)
Fixpoint join (sep : jsstring) (xs : list jsstring) : jsstring :=
  match xs with
  | [] => []
  | [x] => x
  | x :: xs' => x ++ sep ++ join sep xs'
  end.

(** [Number.prototype.toString] on an integral number: its decimal digits. *)
Definition Number_toString (n : Z) : jsstring :=
  str (NilZero.string_of_int (Z.to_int n)).

End JsString.
Import JsString.

(** ** The data model, from the type declarations *)

Record WordDefinition := {
  wd_word : jsstring;
  wd_phonetic : jsstring;
  wd_partOfSpeech : jsstring;
  wd_definition : jsstring;
  wd_originalDefinition : jsstring;
  wd_examples : list jsstring;
  wd_synonyms : list jsstring;
  wd_etymology : jsstring;
  wd_vibes : list jsstring
}.

Record AdditionalMeaning := {
  am_context : jsstring;
  am_definition : jsstring
}.

Inductive Role := user | model.

Record ChatMessage := {
  cm_id : jsstring;
  cm_role : Role;
  cm_text : jsstring
}.

Record SavedItem := {
  si_id : jsstring;
  si_word : jsstring;
  si_imageUrl : jsstring;
  si_definition : jsstring;
  si_timestamp : Z
}.

Record StoryQuiz := {
  sq_title : jsstring;
  sq_content : jsstring;
  sq_wordsUsed : list jsstring
}.

Inductive SupportedLanguage :=
| ENGLISH | SPANISH | FRENCH | GERMAN | CHINESE | JAPANESE
| KOREAN | HINDI | ARABIC | PORTUGUESE | RUSSIAN | ITALIAN.

Inductive View := search | wordbook.

Inductive Feedback := like | dislike.

#[global] Instance Feedback_eq_dec : EqDecision Feedback.
Proof. solve_decision. Defined.

#[global] Instance Role_eq_dec : EqDecision Role.
Proof. solve_decision. Defined.

(** ** The state cells of the [App] component *)

Record AppState := {
  view : View;
  query : jsstring;
  targetLanguage : SupportedLanguage;
  nativeLanguage : SupportedLanguage;
  wordData : option WordDefinition;
  gallery : list jsstring;
  activeImageIndex : nat;
  additionalMeanings : option (list AdditionalMeaning);
  imageFeedbacks : gmap jsstring Feedback;
  savedItems : list SavedItem;
  storyQuiz : option StoryQuiz;
  loadingStory : bool;
  loadingWord : bool;
  loadingImage : bool;
  loadingAudio : bool;
  loadingMoreMeanings : bool;
  loadingNewImage : bool;
  isChatOpen : bool;
  chatMessages : list ChatMessage;
  chatInput : jsstring;
  isChatSending : bool
}.

(** The state of a freshly mounted component, with the collection hydrated
    from local storage. *)
Definition initialState (hydrated : list SavedItem) : AppState := {|
  view := search; query := [];
  targetLanguage := SPANISH; nativeLanguage := ENGLISH;
  wordData := None; gallery := []; activeImageIndex := 0;
  additionalMeanings := None; imageFeedbacks := ∅;
  savedItems := hydrated;
  storyQuiz := None; loadingStory := false;
  loadingWord := false; loadingImage := false; loadingAudio := false;
  loadingMoreMeanings := false; loadingNewImage := false;
  isChatOpen := false; chatMessages := []; chatInput := [];
  isChatSending := false
|}.

(** The argument of a React setter: a value, or a function of the value the
    cell holds when the update is applied. *)
Inductive SetStateAction (A : Type) :=
| Value (a : A)
| Updater (f : A → A).
Arguments Value {A} a.
Arguments Updater {A} f.

Definition resolve {A} (act : SetStateAction A) (prev : A) : A :=
  match act with
  | Value a => a
  | Updater f => f prev
  end.

Inductive update :=
| setView (v : View)
| setWordData (d : option WordDefinition)
| setGallery (g : SetStateAction (list jsstring))
| setActiveImageIndex (i : SetStateAction nat)
| setAdditionalMeanings (m : option (list AdditionalMeaning))
| setImageFeedbacks (f : SetStateAction (gmap jsstring Feedback))
| setSavedItems (f : SetStateAction (list SavedItem))
| setStoryQuiz (q : option StoryQuiz)
| setLoadingStory (b : bool)
| setLoadingWord (b : bool)
| setLoadingImage (b : bool)
| setLoadingNewImage (b : bool)
| setIsChatOpen (b : bool)
| setChatMessages (f : SetStateAction (list ChatMessage))
| setChatInput (s : jsstring)
| setIsChatSending (b : bool).

Definition apply_update (u : update) (s : AppState) : AppState :=
  match u with
  | setView v =>
      {| view := v; query := query s; targetLanguage := targetLanguage s;
         nativeLanguage := nativeLanguage s; wordData := wordData s;
         gallery := gallery s; activeImageIndex := activeImageIndex s;
         additionalMeanings := additionalMeanings s;
         imageFeedbacks := imageFeedbacks s; savedItems := savedItems s;
         storyQuiz := storyQuiz s; loadingStory := loadingStory s;
         loadingWord := loadingWord s; loadingImage := loadingImage s;
         loadingAudio := loadingAudio s;
         loadingMoreMeanings := loadingMoreMeanings s;
         loadingNewImage := loadingNewImage s; isChatOpen := isChatOpen s;
         chatMessages := chatMessages s; chatInput := chatInput s;
         isChatSending := isChatSending s |}
  | setWordData d =>
      {| view := view s; query := query s; targetLanguage := targetLanguage s;
         nativeLanguage := nativeLanguage s; wordData := d;
         gallery := gallery s; activeImageIndex := activeImageIndex s;
         additionalMeanings := additionalMeanings s;
         imageFeedbacks := imageFeedbacks s; savedItems := savedItems s;
         storyQuiz := storyQuiz s; loadingStory := loadingStory s;
         loadingWord := loadingWord s; loadingImage := loadingImage s;
         loadingAudio := loadingAudio s;
         loadingMoreMeanings := loadingMoreMeanings s;
         loadingNewImage := loadingNewImage s; isChatOpen := isChatOpen s;
         chatMessages := chatMessages s; chatInput := chatInput s;
         isChatSending := isChatSending s |}
  | setGallery g =>
      {| view := view s; query := query s; targetLanguage := targetLanguage s;
         nativeLanguage := nativeLanguage s; wordData := wordData s;
         gallery := resolve g (gallery s);
         activeImageIndex := activeImageIndex s;
         additionalMeanings := additionalMeanings s;
         imageFeedbacks := imageFeedbacks s; savedItems := savedItems s;
         storyQuiz := storyQuiz s; loadingStory := loadingStory s;
         loadingWord := loadingWord s; loadingImage := loadingImage s;
         loadingAudio := loadingAudio s;
         loadingMoreMeanings := loadingMoreMeanings s;
         loadingNewImage := loadingNewImage s; isChatOpen := isChatOpen s;
         chatMessages := chatMessages s; chatInput := chatInput s;
         isChatSending := isChatSending s |}
  | setActiveImageIndex i =>
      {| view := view s; query := query s; targetLanguage := targetLanguage s;
         nativeLanguage := nativeLanguage s; wordData := wordData s;
         gallery := gallery s;
         activeImageIndex := resolve i (activeImageIndex s);
         additionalMeanings := additionalMeanings s;
         imageFeedbacks := imageFeedbacks s; savedItems := savedItems s;
         storyQuiz := storyQuiz s; loadingStory := loadingStory s;
         loadingWord := loadingWord s; loadingImage := loadingImage s;
         loadingAudio := loadingAudio s;
         loadingMoreMeanings := loadingMoreMeanings s;
         loadingNewImage := loadingNewImage s; isChatOpen := isChatOpen s;
         chatMessages := chatMessages s; chatInput := chatInput s;
         isChatSending := isChatSending s |}
  | setAdditionalMeanings m =>
      {| view := view s; query := query s; targetLanguage := targetLanguage s;
         nativeLanguage := nativeLanguage s; wordData := wordData s;
         gallery := gallery s; activeImageIndex := activeImageIndex s;
         additionalMeanings := m;
         imageFeedbacks := imageFeedbacks s; savedItems := savedItems s;
         storyQuiz := storyQuiz s; loadingStory := loadingStory s;
         loadingWord := loadingWord s; loadingImage := loadingImage s;
         loadingAudio := loadingAudio s;
         loadingMoreMeanings := loadingMoreMeanings s;
         loadingNewImage := loadingNewImage s; isChatOpen := isChatOpen s;
         chatMessages := chatMessages s; chatInput := chatInput s;
         isChatSending := isChatSending s |}
  | setImageFeedbacks f =>
      {| view := view s; query := query s; targetLanguage := targetLanguage s;
         nativeLanguage := nativeLanguage s; wordData := wordData s;
         gallery := gallery s; activeImageIndex := activeImageIndex s;
         additionalMeanings := additionalMeanings s;
         imageFeedbacks := resolve f (imageFeedbacks s);
         savedItems := savedItems s;
         storyQuiz := storyQuiz s; loadingStory := loadingStory s;
         loadingWord := loadingWord s; loadingImage := loadingImage s;
         loadingAudio := loadingAudio s;
         loadingMoreMeanings := loadingMoreMeanings s;
         loadingNewImage := loadingNewImage s; isChatOpen := isChatOpen s;
         chatMessages := chatMessages s; chatInput := chatInput s;
         isChatSending := isChatSending s |}
  | setSavedItems f =>
      {| view := view s; query := query s; targetLanguage := targetLanguage s;
         nativeLanguage := nativeLanguage s; wordData := wordData s;
         gallery := gallery s; activeImageIndex := activeImageIndex s;
         additionalMeanings := additionalMeanings s;
         imageFeedbacks := imageFeedbacks s;
         savedItems := resolve f (savedItems s);
         storyQuiz := storyQuiz s; loadingStory := loadingStory s;
         loadingWord := loadingWord s; loadingImage := loadingImage s;
         loadingAudio := loadingAudio s;
         loadingMoreMeanings := loadingMoreMeanings s;
         loadingNewImage := loadingNewImage s; isChatOpen := isChatOpen s;
         chatMessages := chatMessages s; chatInput := chatInput s;
         isChatSending := isChatSending s |}
  | setStoryQuiz q =>
      {| view := view s; query := query s; targetLanguage := targetLanguage s;
         nativeLanguage := nativeLanguage s; wordData := wordData s;
         gallery := gallery s; activeImageIndex := activeImageIndex s;
         additionalMeanings := additionalMeanings s;
         imageFeedbacks := imageFeedbacks s; savedItems := savedItems s;
         storyQuiz := q; loadingStory := loadingStory s;
         loadingWord := loadingWord s; loadingImage := loadingImage s;
         loadingAudio := loadingAudio s;
         loadingMoreMeanings := loadingMoreMeanings s;
         loadingNewImage := loadingNewImage s; isChatOpen := isChatOpen s;
         chatMessages := chatMessages s; chatInput := chatInput s;
         isChatSending := isChatSending s |}
  | setLoadingStory b =>
      {| view := view s; query := query s; targetLanguage := targetLanguage s;
         nativeLanguage := nativeLanguage s; wordData := wordData s;
         gallery := gallery s; activeImageIndex := activeImageIndex s;
         additionalMeanings := additionalMeanings s;
         imageFeedbacks := imageFeedbacks s; savedItems := savedItems s;
         storyQuiz := storyQuiz s; loadingStory := b;
         loadingWord := loadingWord s; loadingImage := loadingImage s;
         loadingAudio := loadingAudio s;
         loadingMoreMeanings := loadingMoreMeanings s;
         loadingNewImage := loadingNewImage s; isChatOpen := isChatOpen s;
         chatMessages := chatMessages s; chatInput := chatInput s;
         isChatSending := isChatSending s |}
  | setLoadingWord b =>
      {| view := view s; query := query s; targetLanguage := targetLanguage s;
         nativeLanguage := nativeLanguage s; wordData := wordData s;
         gallery := gallery s; activeImageIndex := activeImageIndex s;
         additionalMeanings := additionalMeanings s;
         imageFeedbacks := imageFeedbacks s; savedItems := savedItems s;
         storyQuiz := storyQuiz s; loadingStory := loadingStory s;
         loadingWord := b; loadingImage := loadingImage s;
         loadingAudio := loadingAudio s;
         loadingMoreMeanings := loadingMoreMeanings s;
         loadingNewImage := loadingNewImage s; isChatOpen := isChatOpen s;
         chatMessages := chatMessages s; chatInput := chatInput s;
         isChatSending := isChatSending s |}
  | setLoadingImage b =>
      {| view := view s; query := query s; targetLanguage := targetLanguage s;
         nativeLanguage := nativeLanguage s; wordData := wordData s;
         gallery := gallery s; activeImageIndex := activeImageIndex s;
         additionalMeanings := additionalMeanings s;
         imageFeedbacks := imageFeedbacks s; savedItems := savedItems s;
         storyQuiz := storyQuiz s; loadingStory := loadingStory s;
         loadingWord := loadingWord s; loadingImage := b;
         loadingAudio := loadingAudio s;
         loadingMoreMeanings := loadingMoreMeanings s;
         loadingNewImage := loadingNewImage s; isChatOpen := isChatOpen s;
         chatMessages := chatMessages s; chatInput := chatInput s;
         isChatSending := isChatSending s |}
  | setLoadingNewImage b =>
      {| view := view s; query := query s; targetLanguage := targetLanguage s;
         nativeLanguage := nativeLanguage s; wordData := wordData s;
         gallery := gallery s; activeImageIndex := activeImageIndex s;
         additionalMeanings := additionalMeanings s;
         imageFeedbacks := imageFeedbacks s; savedItems := savedItems s;
         storyQuiz := storyQuiz s; loadingStory := loadingStory s;
         loadingWord := loadingWord s; loadingImage := loadingImage s;
         loadingAudio := loadingAudio s;
         loadingMoreMeanings := loadingMoreMeanings s;
         loadingNewImage := b; isChatOpen := isChatOpen s;
         chatMessages := chatMessages s; chatInput := chatInput s;
         isChatSending := isChatSending s |}
  | setIsChatOpen b =>
      {| view := view s; query := query s; targetLanguage := targetLanguage s;
         nativeLanguage := nativeLanguage s; wordData := wordData s;
         gallery := gallery s; activeImageIndex := activeImageIndex s;
         additionalMeanings := additionalMeanings s;
         imageFeedbacks := imageFeedbacks s; savedItems := savedItems s;
         storyQuiz := storyQuiz s; loadingStory := loadingStory s;
         loadingWord := loadingWord s; loadingImage := loadingImage s;
         loadingAudio := loadingAudio s;
         loadingMoreMeanings := loadingMoreMeanings s;
         loadingNewImage := loadingNewImage s; isChatOpen := b;
         chatMessages := chatMessages s; chatInput := chatInput s;
         isChatSending := isChatSending s |}
  | setChatMessages f =>
      {| view := view s; query := query s; targetLanguage := targetLanguage s;
         nativeLanguage := nativeLanguage s; wordData := wordData s;
         gallery := gallery s; activeImageIndex := activeImageIndex s;
         additionalMeanings := additionalMeanings s;
         imageFeedbacks := imageFeedbacks s; savedItems := savedItems s;
         storyQuiz := storyQuiz s; loadingStory := loadingStory s;
         loadingWord := loadingWord s; loadingImage := loadingImage s;
         loadingAudio := loadingAudio s;
         loadingMoreMeanings := loadingMoreMeanings s;
         loadingNewImage := loadingNewImage s; isChatOpen := isChatOpen s;
         chatMessages := resolve f (chatMessages s);
         chatInput := chatInput s;
         isChatSending := isChatSending s |}
  | setChatInput c =>
      {| view := view s; query := query s; targetLanguage := targetLanguage s;
         nativeLanguage := nativeLanguage s; wordData := wordData s;
         gallery := gallery s; activeImageIndex := activeImageIndex s;
         additionalMeanings := additionalMeanings s;
         imageFeedbacks := imageFeedbacks s; savedItems := savedItems s;
         storyQuiz := storyQuiz s; loadingStory := loadingStory s;
         loadingWord := loadingWord s; loadingImage := loadingImage s;
         loadingAudio := loadingAudio s;
         loadingMoreMeanings := loadingMoreMeanings s;
         loadingNewImage := loadingNewImage s; isChatOpen := isChatOpen s;
         chatMessages := chatMessages s; chatInput := c;
         isChatSending := isChatSending s |}
  | setIsChatSending b =>
      {| view := view s; query := query s; targetLanguage := targetLanguage s;
         nativeLanguage := nativeLanguage s; wordData := wordData s;
         gallery := gallery s; activeImageIndex := activeImageIndex s;
         additionalMeanings := additionalMeanings s;
         imageFeedbacks := imageFeedbacks s; savedItems := savedItems s;
         storyQuiz := storyQuiz s; loadingStory := loadingStory s;
         loadingWord := loadingWord s; loadingImage := loadingImage s;
         loadingAudio := loadingAudio s;
         loadingMoreMeanings := loadingMoreMeanings s;
         loadingNewImage := loadingNewImage s; isChatOpen := isChatOpen s;
         chatMessages := chatMessages s; chatInput := chatInput s;
         isChatSending := b |}
  end.

(** ** Effects of a handler *)

(** The requests the gateway sends to the generative service.  A prompt is
    kept as the values interpolated into its template. *)
Inductive request :=
| DefinitionRequest (word : jsstring) (target native : SupportedLanguage)
| ImageRequest (word : jsstring) (promptContext : option jsstring)
| StoryRequest (wordList : jsstring) (target : SupportedLanguage)
| ChatRequest (history : list (Role * jsstring)) (message currentWord : jsstring)
    (target native : SupportedLanguage).

Inductive event :=
| SetState (u : update)
| Issue (r : request)
| ConsoleError (label : string).

(** A thrown value. *)
Inductive exn :=
| Error (message : string)
| ServiceFailure
| SyntaxError
| RangeError
| NotSupportedError.

Inductive result (A : Type) :=
| Ok (a : A)
| Throw (e : exn).
Arguments Ok {A} a.
Arguments Throw {A} e.

(** A computation: the events it performed, in order, and how it ended. *)
Definition M (A : Type) : Type := list event * result A.

#[global] Instance M_ret : MRet M := fun A a => ([], Ok a).

#[global] Instance M_bind : MBind M := fun A B k m =>
  match m with
  | (t, Ok a) => let '(t', r) := k a in (t ++ t', r)
  | (t, Throw e) => (t, Throw e)
  end.

Definition emit (e : event) : M unit := ([e], Ok tt).

Definition throw {A} (e : exn) : M A := ([], Throw e).

(** [try { body } catch (e) { handler e }] *)
Definition try_catch {A} (body : M A) (handler : exn → M A) : M A :=
  match body with
  | (t, Ok a) => (t, Ok a)
  | (t, Throw e) => let '(t', r) := handler e in (t ++ t', r)
  end.

(** [try { body } finally { cleanup }]: the cleanup runs either way, and the
    completion of the body stands unless the cleanup throws. *)
Definition try_finally {A} (body : M A) (cleanup : M unit) : M A :=
  let '(t, r) := body in
  let '(t', r') := cleanup in
  (t ++ t', match r' with Ok _ => r | Throw e => Throw e end).

Definition set (u : update) : M unit := emit (SetState u).
Definition console_error (label : string) : M unit := emit (ConsoleError label).

(** An asynchronous call: what the callee does synchronously, up to its first
    suspension, and the rest of its body, which runs when the awaited service
    call settles and decides how the returned promise settles. *)
Record async (A : Type) := Async {
  issued : list event;
  settled : M A
}.
Arguments Async {A} issued settled.
Arguments issued {A} a.
Arguments settled {A} a.

(** Calling an asynchronous function performs its synchronous part and hands
    back the promise. *)
Definition call {A} (a : async A) : M (M A) := (issued a, Ok (settled a)).

(** [await p] *)
Definition await {A} (p : M A) : M A := p.

(** The events of a computation, and the state they leave when they are
    applied in order. *)
Definition trace {A} (m : M A) : list event := fst m.

Definition apply_event (s : AppState) (e : event) : AppState :=
  match e with
  | SetState u => apply_update u s
  | Issue _ | ConsoleError _ => s
  end.

Definition run (t : list event) (s : AppState) : AppState :=
  fold_left apply_event t s.

(** The requests of a trace, in the order they were issued. *)
Definition requests (t : list event) : list request :=
  omap (fun e => match e with Issue r => Some r | _ => None end) t.

(** ** The AI gateway *)

Module Gateway.

(** What the service client hands back for a text generation: the [text]
    accessor of the response, which can be undefined. *)
Definition TextResponse := result (option jsstring).

Section Parsers.

(** [JSON.parse] followed by the cast to the expected interface. *)
Variable parseWordDefinition : jsstring → result WordDefinition.
(** [getWordDetails] *)
Definition getWordDetails (word : jsstring) (target native : SupportedLanguage)
    (response : TextResponse) : async WordDefinition :=
  Async [Issue (DefinitionRequest word target native)]
    (match response with
     | Throw e => throw e
     | Ok text =>
         match text with
         | None | Some [] => throw (Error "Failed to generate definition.")
         | Some t =>
             match parseWordDefinition t with
             | Ok d => mret d
             | Throw e => throw e
             end
         end
     end).

End Parsers.

Definition image_prefix : jsstring := str "data:image/jpeg;base64,".

(** [generateWordImage]: [imageBytes] is what
    [response.generatedImages?.[0]?.image?.imageBytes] evaluates to. *)
Definition generateWordImage (word : jsstring) (promptContext : option jsstring)
    (imageBytes : result (option jsstring)) : async jsstring :=
  Async [Issue (ImageRequest word promptContext)]
    (try_catch
       (base64ImageBytes ← (match imageBytes with
                            | Ok b => mret b
                            | Throw e => throw e
                            end);
        match base64ImageBytes with
        | None | Some [] => throw (Error "No image generated")
        | Some b => mret (image_prefix ++ b)
        end)
       (fun error => console_error "Imagen failed";; mret [])).

(** [chatAboutWord]: returns [response.text], possibly undefined. *)
Definition chatAboutWord (history : list (Role * jsstring))
    (message currentWord : jsstring) (target native : SupportedLanguage)
    (response : TextResponse) : async (option jsstring) :=
  Async [Issue (ChatRequest history message currentWord target native)]
    (match response with
     | Ok text => mret text
     | Throw e => throw e
     end).

End Gateway.

(** ** The view controller: the handlers of [App] *)

Module App.
Import Gateway.

(** [gallery[activeImageIndex]], undefined out of range. *)
Definition currentImage (s : AppState) : option jsstring :=
  gallery s !! activeImageIndex s.

Section Handlers.

Variable parseWordDefinition : jsstring → result WordDefinition.

(** [handleSearch].  [s] is the state the handler closed over; the two
    last arguments are what the service answers to the definition request
    and to the image request. *)
Definition handleSearch (s : AppState)
    (definition : TextResponse) (imageBytes : result (option jsstring))
    : M unit :=
  if negb (truthy (trim (query s))) then mret tt
  else
    set (setView search);;
    (* Reset all states *)
    set (setLoadingWord true);;
    set (setLoadingImage true);;
    set (setWordData None);;
    set (setGallery (Value []));;
    set (setActiveImageIndex (Value 0));;
    set (setAdditionalMeanings None);;
    set (setImageFeedbacks (Value ∅));;
    set (setChatMessages (Value []));;
    set (setIsChatOpen false);;
    try_finally
      (try_catch
         ((* Parallel fetch *)
          detailsPromise ← call (getWordDetails parseWordDefinition (query s)
                                   (targetLanguage s) (nativeLanguage s)
                                   definition);
          imagePromise ← call (generateWordImage (query s) None imageBytes);
          details ← await detailsPromise;
          set (setWordData (Some details));;
          set (setLoadingWord false);;
          img ← await imagePromise;
          if truthy img then set (setGallery (Value [img])) else mret tt)
         (fun error => console_error "Error fetching data"))
      (set (setLoadingWord false);;
       set (setLoadingImage false)).

End Handlers.

(** [handleGenerateNewImage] *)
Definition handleGenerateNewImage (s : AppState)
    (imageBytes : result (option jsstring)) : M unit :=
  match wordData s with
  | None => mret tt
  | Some wd =>
      set (setLoadingNewImage true);;
      try_finally
        (try_catch
           (let context :=
              if length (gallery s) =? 1
              then str "Abstract and colorful interpretation"
              else str "Real world scenario usage" in
            promise ← call (generateWordImage (wd_word wd) (Some context)
                              imageBytes);
            newImg ← await promise;
            if truthy newImg then
              set (setGallery (Updater (fun prev => prev ++ [newImg])));;
              set (setActiveImageIndex (Updater (fun prev => prev + 1)))
            else mret tt)
           (fun err => console_error "Failed to generate new image"))
        (set (setLoadingNewImage false))
  end.

(** The updater of [toggleFeedback]. *)
Definition toggleFeedback_updater (currentUrl : jsstring) (type : Feedback)
    (prev : gmap jsstring Feedback) : gmap jsstring Feedback :=
  let current := prev !! currentUrl in
  if decide (current = Some type) then
    let newState := prev in
    delete currentUrl newState
  else <[currentUrl := type]> prev.

(** [toggleFeedback] *)
Definition toggleFeedback (s : AppState) (type : Feedback) : M unit :=
  match currentImage s with
  | None | Some [] => mret tt
  | Some currentUrl =>
      set (setImageFeedbacks (Updater (toggleFeedback_updater currentUrl type)))
  end.

(** The updater of [handleSaveItem]. *)
Definition save_updater (newItem : SavedItem) (prev : list SavedItem)
    : list SavedItem :=
  (* Prevent duplicates of same word/image combo *)
  if existsb (fun item =>
                bool_decide (si_word item = si_word newItem)
                && bool_decide (si_imageUrl item = si_imageUrl newItem)) prev
  then prev
  else newItem :: prev.

(** [handleSaveItem]; [now_id] and [now_ts] are the two readings of the
    clock. *)
Definition handleSaveItem (s : AppState) (now_id now_ts : Z) : M unit :=
  match wordData s, currentImage s with
  | Some wd, Some ((_ :: _) as img) =>
      let newItem := {|
        si_id := Number_toString now_id;
        si_word := wd_word wd;
        si_definition := wd_definition wd;
        si_imageUrl := img;
        si_timestamp := now_ts
      |} in
      set (setSavedItems (Updater (save_updater newItem)))
  | _, _ => mret tt
  end.

(** [handleRemoveSavedItem] *)
Definition handleRemoveSavedItem (id : jsstring) : M unit :=
  set (setSavedItems
         (Updater (fun prev =>
                     List.filter (fun item => negb (bool_decide (si_id item = id)))
                       prev))).

Definition chat_fallback : jsstring :=
  str "I couldn't answer that at the moment.".

(** [handleChatSubmit]; [now_user] and [now_bot] are the two readings of
    the clock, [response] is what the service answers. *)
Definition handleChatSubmit (s : AppState) (now_user now_bot : Z)
    (response : TextResponse) : M unit :=
  match truthy (trim (chatInput s)), wordData s with
  | true, Some wd =>
      let userMsg := {|
        cm_id := Number_toString now_user;
        cm_role := user;
        cm_text := chatInput s
      |} in
      set (setChatMessages (Updater (fun prev => prev ++ [userMsg])));;
      set (setChatInput []);;
      set (setIsChatSending true);;
      try_finally
        (try_catch
           (let history :=
              (fun m => (cm_role m, cm_text m)) <$> chatMessages s in
            promise ← call (chatAboutWord history (cm_text userMsg) (wd_word wd)
                              (targetLanguage s) (nativeLanguage s) response);
            responseText ← await promise;
            let botMsg := {|
              cm_id := Number_toString (now_bot + 1);
              cm_role := model;
              cm_text := match responseText with
                         | Some ((_ :: _) as text) => text
                         | Some [] | None => chat_fallback
                         end
            |} in
            set (setChatMessages (Updater (fun prev => prev ++ [botMsg]))))
           (fun err => console_error "Chat failed"))
        (set (setIsChatSending false))
  | _, _ => mret tt
  end.

End App.

(** ** The story composer *)

Module Story.
Import Gateway.

(** JavaScript arrays are objects: an array value is a reference into a
    store, and two names for one array see each other's writes. *)
Abbreviation loc := positive.
Abbreviation heap := (gmap positive (list jsstring)).

(** The outcomes of the successive calls of the comparator
    [() => 0.5 - Math.random()], which ignores its arguments: [Gt] when the
    difference is positive, [Lt] when it is negative, [Eq] when it is zero. *)
Abbreviation draws := (nat → comparison).

(** [Array.prototype.sort] of the engine the program runs on.  The order an
    engine produces under a comparator that is not consistent is its own
    business; what every engine guarantees, and all this development
    relies on, is that it rearranges the elements it was given. *)
Class SortEngine := {
  array_sort : draws → list jsstring → list jsstring;
  array_sort_perm : ∀ cmp l, array_sort cmp l ≡ₚ l
}.

(** One engine: insertion sort, asking the comparator from the front of the
    sorted prefix. [k] counts the calls of the comparator made so far. *)
Fixpoint insert_by (cmp : draws) (k : nat) (x : jsstring) (sorted : list jsstring)
    : list jsstring * nat :=
  match sorted with
  | [] => ([x], k)
  | y :: ys =>
      match cmp k with
      | Gt => let '(r, k') := insert_by cmp (S k) x ys in (y :: r, k')
      | Eq | Lt => (x :: y :: ys, S k)
      end
  end.

Fixpoint insertion_sort_from (cmp : draws) (k : nat) (l : list jsstring)
    : list jsstring * nat :=
  match l with
  | [] => ([], k)
  | x :: xs =>
      let '(sorted, k') := insertion_sort_from cmp k xs in
      insert_by cmp k' x sorted
  end.

Definition insertion_sort (cmp : draws) (l : list jsstring) : list jsstring :=
  fst (insertion_sort_from cmp 0 l).

(** [Array.from(new Set(xs))]: the elements of [xs] in order of first
    appearance. *)
Definition Set_add (seen : list jsstring) (x : jsstring) : list jsstring :=
  if bool_decide (x ∈ seen) then seen else seen ++ [x].

Definition Array_from_Set (xs : list jsstring) : list jsstring :=
  fold_left Set_add xs [].

Section WithEngine.
Context `{engine : SortEngine}.
Variable parseStoryQuiz : jsstring → result StoryQuiz.

(** The first statement of [generateStoryFromWords]: the subset, and the
    store after it was computed.  [words.sort] sorts the array [words]
    refers to, in place; [slice] copies. *)
Definition select_subset (h : heap) (words : loc) (cmp : draws)
    : option (heap * list jsstring) :=
  l ← h !! words;
  if 8 <? length l then
    let sorted := array_sort cmp l in
    Some (<[words := sorted]> h, take 8 sorted)
  else Some (h, l).

(** [generateStoryFromWords].  [None] only when [words] is not a
    reference of the store. *)
Definition generateStoryFromWords (h : heap) (words : loc)
    (target : SupportedLanguage) (cmp : draws) (response : TextResponse)
    : option (heap * async StoryQuiz) :=
  '(h', subset) ← select_subset h words cmp;
  Some (h',
        Async [Issue (StoryRequest (join (str ", ") subset) target)]
          (match response with
           | Throw e => throw e
           | Ok text =>
               match text with
               | None | Some [] => throw (Error "Failed to generate story")
               | Some t =>
                   match parseStoryQuiz t with
                   | Ok q => mret q
                   | Throw e => throw e
                   end
               end
           end)).

(** [handleGenerateStory]: the store and the handler's computation.  The
    array of unique words is allocated at a fresh reference. *)
Definition handleGenerateStory (s : AppState) (h : heap) (cmp : draws)
    (response : TextResponse) : heap * M unit :=
  if length (savedItems s) =? 0 then (h, mret tt)
  else
    (* Extract unique words *)
    let uniqueWords := fresh (dom h) in
    let h1 := <[uniqueWords := Array_from_Set (si_word <$> savedItems s)]> h in
    match generateStoryFromWords h1 uniqueWords (targetLanguage s) cmp response with
    | None => (h1, mret tt)
    | Some (h2, story) =>
        (h2,
         set (setLoadingStory true);;
         set (setStoryQuiz None);;
         try_finally
           (try_catch
              (promise ← call story;
               quiz ← await promise;
               set (setStoryQuiz (Some quiz)))
              (fun err => console_error "Story generation failed"))
           (set (setLoadingStory false)))
    end.

End WithEngine.

End Story.

(** ** The story renderer *)

Module Renderer.

(** What remains of [/\{\{.*?\}\}/] once the two opening braces are read:
    the lazy [.*?] tries to close at every position before it takes one
    more character, and a character it takes is not a line terminator.
    The result is the token and the text after the closing braces. *)
Definition open_braces : jsstring := Eval cbv in str "{{".
Definition close_braces : jsstring := Eval cbv in str "}}".

Fixpoint lazy_until_close (s : jsstring) : option (jsstring * jsstring) :=
  match s with
  | [] => None
  | c :: s' =>
      if startsWith close_braces s then Some ([], drop 2 s)
      else if is_line_terminator c then None
      else '(token, rest) ← lazy_until_close s'; Some (c :: token, rest)
  end.

(** A match of the expression at the head of [s]. *)
Definition match_marker (s : jsstring) : option (jsstring * jsstring) :=
  if startsWith open_braces s then lazy_until_close (drop 2 s) else None.

Definition marker (token : jsstring) : jsstring :=
  open_braces ++ token ++ close_braces.

(** [content.split(/(\{\{.*?\}\})/g)]: the loop of the split of a regular
    expression with one capture group around the whole match.  [lit] is the
    text read since the last match; a match closes it and is itself the
    next element; the search resumes after the match. *)
Equations? split_loop (lit s : jsstring) : list jsstring by wf (length s) lt :=
  split_loop lit [] := [lit];
  split_loop lit (c :: s') with inspect (match_marker (c :: s')) := {
    | exist _ (Some (token, rest)) Hm := lit :: marker token :: split_loop [] rest;
    | exist _ None _ := split_loop (lit ++ [c]) s' }.
Proof.
  clear split_loop. revert Hm. unfold match_marker.
  destruct (startsWith _ (c :: s')); [|done]. intros Hm.
  enough (∀ u t r, lazy_until_close u = Some (t, r) → length r < length u)
    as Hlen.
  { apply Hlen in Hm. rewrite length_drop in Hm. simpl in *. lia. }
  clear. induction u as [|e u IHu]; intros t r; [done|].
  cbn [lazy_until_close].
  destruct (startsWith close_braces (e :: u)).
  { intros [= <- <-]. rewrite length_drop. simpl. lia. }
  destruct (is_line_terminator e); [done|].
  destruct (lazy_until_close u) as [[t' r']|] eqn:Hu; [|done].
  intros [= <- <-]. specialize (IHu _ _ eq_refl). simpl. lia.
Qed.

Definition split (content : jsstring) : list jsstring := split_loop [] content.

(** What the renderer puts on the page for one part. *)
Inductive node :=
| QuizBlank (word : jsstring)
| Span (text : jsstring).

(** The callback of [parts.map]. *)
Definition render_part (part : jsstring) : node :=
  if startsWith open_braces part && endsWith close_braces part then
    let word := slice_from_to_end 2 2 part in
    QuizBlank word
  else Span part.

(** [renderStoryContent] *)
Definition renderStoryContent (content : jsstring) : list node :=
  render_part <$> split content.

End Renderer.

(** ** The audio decode utility *)

Module Audio.

(** The byte order of the platform, which is the one a typed array laid over
    a buffer reads with. *)
Inductive endianness := LittleEndian | BigEndian.

(** A sample of the output buffer.  The quotient of an integer of sixteen
    bits by [32768] is a dyadic rational with at most sixteen significant bits,
    which both the double of the division and the single-precision cell it
    is stored in hold exactly, so the value is the rational itself; [NaN] is
    what an undefined operand would give. *)
Inductive float := Finite (q : Q) | NaN.

Definition byte_val (b : Byte.byte) : Z := Z.of_N (Byte.to_N b).

(** Storing a number into a [Uint8Array] keeps its low eight bits. *)
Definition ToUint8 (c : N) : Byte.byte :=
  match Byte.of_N (c mod 256) with
  | Some b => b
  | None => Byte.x00
  end.

(** [decodeAudio], after [atob]: one byte per character of the binary
    string. *)
Definition decodeAudio (binaryString : jsstring) : list Byte.byte :=
  fold_left (fun bytes i => <[i := ToUint8 (binaryString !!! i)]> bytes)
    (seq 0 (length binaryString))
    (replicate (length binaryString) Byte.x00).

(** Two bytes read as a signed integer of sixteen bits. *)
Definition int16 (e : endianness) (b0 b1 : Byte.byte) : Z :=
  let u := match e with
           | LittleEndian => Z.lor (byte_val b0) (Z.shiftl (byte_val b1) 8)
           | BigEndian => Z.lor (byte_val b1) (Z.shiftl (byte_val b0) 8)
           end in
  if (u <? 32768)%Z then u else (u - 65536)%Z.

Fixpoint int16_elements (e : endianness) (bytes : list Byte.byte) : list Z :=
  match bytes with
  | b0 :: b1 :: rest => int16 e b0 b1 :: int16_elements e rest
  | _ => []
  end.

(** [new Int16Array(buffer)]: a view of the whole buffer, refused when its
    length in bytes is not a multiple of two. *)
Definition Int16Array_of_buffer (e : endianness) (bytes : list Byte.byte)
    : result (list Z) :=
  if Nat.even (length bytes) then Ok (int16_elements e bytes)
  else Throw RangeError.

Definition numChannels : nat := 1.

(** [x / 32768.0] *)
Definition div_32768 (x : option Z) : float :=
  match x with
  | Some v => Finite (v # 32768)
  | None => NaN
  end.

(** The inner loop of [decodeAudioData] for one channel. *)
Definition fill_channel (dataInt16 : list Z) (frameCount channel : nat)
    (channelData : list float) : list float :=
  fold_left
    (fun data i => <[i := div_32768 (dataInt16 !! (i * numChannels + channel))]> data)
    (seq 0 frameCount) channelData.

Definition sampleRate : Z := 24000.

(** [ctx.createBuffer(numberOfChannels, length, sampleRate)] of the Web Audio
    interface: the data of one channel of the new buffer, [length] samples
    that are all zero.  A buffer of no frame is refused. *)
Definition createBuffer (numberOfChannels length : nat) (rate : Z)
    : result (list float) :=
  if length =? 0 then Throw NotSupportedError
  else Ok (replicate length (Finite 0)).

(** [decodeAudioData]: the data of the one channel of the buffer it returns. *)
Definition decodeAudioData (e : endianness) (bytes : list Byte.byte)
    : result (list float) :=
  match Int16Array_of_buffer e bytes with
  | Throw err => Throw err
  | Ok dataInt16 =>
      let frameCount := length dataInt16 / numChannels in
      match createBuffer numChannels frameCount sampleRate with
      | Throw err => Throw err
      | Ok channelData => Ok (fill_channel dataInt16 frameCount 0 channelData)
      end
  end.

Definition in_unit_range (x : float) : Prop :=
  match x with
  | Finite q => (-1 <= q)%Q ∧ (q <= 1)%Q
  | NaN => False
  end.

End Audio.

(** ** Vocabulary of the properties *)

Module Spec.
Import Gateway App.

(** The slice of the state that belongs to the word under inspection, empty. *)
Definition session_cleared (s : AppState) : Prop :=
  wordData s = None ∧ gallery s = [] ∧ activeImageIndex s = 0
  ∧ additionalMeanings s = None ∧ imageFeedbacks s = ∅ ∧ chatMessages s = [].

(** The setter calls a search makes before anything else. *)
Definition reset_prefix : list event :=
  [SetState (setView search);
   SetState (setLoadingWord true);
   SetState (setLoadingImage true);
   SetState (setWordData None);
   SetState (setGallery (Value []));
   SetState (setActiveImageIndex (Value 0));
   SetState (setAdditionalMeanings None);
   SetState (setImageFeedbacks (Value ∅));
   SetState (setChatMessages (Value []));
   SetState (setIsChatOpen false)].

(** The state a handler leaves: its setter calls applied, in order, to the
    state [s0] current when they are processed.  [s0] is the state the handler
    closed over when nothing else ran in between, but no property below needs
    that. *)
Definition after {A} (handler : M A) (s0 : AppState) : AppState :=
  run (trace handler) s0.


(** How the promise of [generateWordImage] settles. *)
Definition image_outcome (imageBytes : result (option jsstring)) : result jsstring :=
  snd (settled (generateWordImage [] None imageBytes)).

(** How the promise of [chatAboutWord] settles. *)
Definition chat_outcome (response : TextResponse) : result (option jsstring) :=
  snd (settled (chatAboutWord [] [] [] ENGLISH ENGLISH response)).

(** The index of the last entry of a gallery. *)
Definition last_index (g : list jsstring) : nat := length g - 1.

(** The key of the uniqueness invariant of the collection. *)
Definition pair_of (item : SavedItem) : jsstring * jsstring :=
  (si_word item, si_imageUrl item).

Definition unique_pairs (items : list SavedItem) : Prop :=
  NoDup (pair_of <$> items).

(** Timestamps never increase from the front to the back. *)
Definition most_recent_first (items : list SavedItem) : Prop :=
  Sorted (fun a b => (si_timestamp b <= si_timestamp a)%Z) items.

(** The role of the last message of a transcript. *)
Definition last_role (msgs : list ChatMessage) : option Role :=
  cm_role <$> last msgs.


Definition user_message (s : AppState) (now_user : Z) : ChatMessage :=
  {| cm_id := Number_toString now_user; cm_role := user; cm_text := chatInput s |}.

Definition bot_message (now_bot : Z) (text : jsstring) : ChatMessage :=
  {| cm_id := Number_toString (now_bot + 1); cm_role := model; cm_text := text |}.

End Spec.

(** ** Sample inputs *)

Module Samples.

Definition gato : WordDefinition := {|
  wd_word := str "gato"; wd_phonetic := str "gato";
  wd_partOfSpeech := str "sustantivo"; wd_definition := str "animal felino";
  wd_originalDefinition := str "animal felino";
  wd_examples := [str "El gato duerme. (The cat sleeps.)"];
  wd_synonyms := [str "minino"]; wd_etymology := str "del latin cattus";
  wd_vibes := [str "cotidiano"]
|}.

(** A parser that accepts every text as the definition of [gato]. *)
Definition parse_gato (text : jsstring) : result WordDefinition := Ok gato.

(** The query typed, nothing searched yet. *)
Definition typed_gato : AppState := {|
  view := search; query := str "gato";
  targetLanguage := SPANISH; nativeLanguage := ENGLISH;
  wordData := None; gallery := []; activeImageIndex := 0;
  additionalMeanings := None; imageFeedbacks := ∅;
  savedItems := [];
  storyQuiz := None; loadingStory := false;
  loadingWord := false; loadingImage := false; loadingAudio := false;
  loadingMoreMeanings := false; loadingNewImage := false;
  isChatOpen := false; chatMessages := []; chatInput := [];
  isChatSending := false
|}.

(** A word on display with the given gallery, active index and chat input. *)
Definition showing (g : list jsstring) (i : nat) (input : jsstring) : AppState := {|
  view := search; query := str "gato";
  targetLanguage := SPANISH; nativeLanguage := ENGLISH;
  wordData := Some gato; gallery := g; activeImageIndex := i;
  additionalMeanings := None; imageFeedbacks := ∅;
  savedItems := [];
  storyQuiz := None; loadingStory := false;
  loadingWord := false; loadingImage := false; loadingAudio := false;
  loadingMoreMeanings := false; loadingNewImage := false;
  isChatOpen := true; chatMessages := []; chatInput := input;
  isChatSending := false
|}.

Definition img (name : string) : jsstring := Gateway.image_prefix ++ str name.

End Samples.

Module StorySamples.
Import Story.

Definition ten_words : list jsstring :=
  [str "alpha"; str "bravo"; str "charlie"; str "delta"; str "echo";
   str "foxtrot"; str "golf"; str "hotel"; str "india"; str "juliet"].

Definition three_words : list jsstring := [str "alpha"; str "bravo"; str "charlie"].

(** A comparator whose every call answers with a positive number. *)
Definition always_positive : draws := fun _ => Gt.

(** A store whose one array holds the ten words. *)
Definition ten_store : heap := {[ 1%positive := ten_words ]}.

Definition saved (w : jsstring) : SavedItem := {|
  si_id := str "0"; si_word := w; si_imageUrl := Samples.img "a";
  si_definition := []; si_timestamp := 0
|}.

(** A wordbook holding the given words. *)
Definition wordbook_of (ws : list jsstring) : AppState := {|
  view := wordbook; query := [];
  targetLanguage := SPANISH; nativeLanguage := ENGLISH;
  wordData := None; gallery := []; activeImageIndex := 0;
  additionalMeanings := None; imageFeedbacks := ∅;
  savedItems := saved <$> ws;
  storyQuiz := None; loadingStory := false;
  loadingWord := false; loadingImage := false; loadingAudio := false;
  loadingMoreMeanings := false; loadingNewImage := false;
  isChatOpen := false; chatMessages := []; chatInput := [];
  isChatSending := false
|}.

Definition parse_nothing (text : jsstring) : result StoryQuiz := Throw SyntaxError.

End StorySamples.

(** ** Vocabulary of the story renderer *)

Module RenderSpec.
Import Renderer.

(** The text a node stands for in the body. *)
Definition source (n : node) : jsstring :=
  match n with
  | QuizBlank word => marker word
  | Span text => text
  end.

(** The text holds two closing braces in a row. *)
Definition closes (t : jsstring) : Prop :=
  ∃ a b, t = a ++ close_braces ++ b.

(** The text holds a complete marker: two opening braces, a token, two
    closing braces. *)
Definition holds_marker (t : jsstring) : Prop :=
  ∃ a token b, t = a ++ marker token ++ b.

(** A blank carries a token that ends at the first closing braces; a span
    carries text in which no marker is left. *)
Definition well_cut (n : node) : Prop :=
  match n with
  | QuizBlank word => ¬ closes word
  | Span text => ¬ holds_marker text
  end.

(** Spans and blanks take turns, from a span to a span. *)
Inductive alternation : list node → Prop :=
| alternation_last text : alternation [Span text]
| alternation_more text word rest :
    alternation rest → alternation (Span text :: QuizBlank word :: rest).

(** No line terminator occurs in the text. *)
Definition single_line (s : jsstring) : Prop :=
  forallb (fun c => negb (is_line_terminator c)) s = true.

(** No line terminator occurs between two opening braces and the first
    closing braces after them. *)
Definition tokens_on_one_line (s : jsstring) : Prop :=
  ∀ a token b,
    s = a ++ marker token ++ b → ¬ closes token → single_line token.

(** What the specification asks of the rendering of a body: put back
    together it is the body; markers became blanks, and only markers did. *)
Definition faithful_rendering (content : jsstring) (nodes : list node) : Prop :=
  concat (source <$> nodes) = content
  ∧ alternation nodes
  ∧ Forall well_cut nodes.

Definition line_feed : jsstring := [10%N].

(** The rendering the specification gives as an example. *)
Definition cat_on_mat : jsstring := str "The {{cat}} sat on the {{mat}}.".

(** A body with a token that spans two lines, and the token alone. *)
Definition token_across_lines : jsstring := str "{{a" ++ line_feed ++ str "b}}".
Definition body_across_lines : jsstring := str "x" ++ token_across_lines.

End RenderSpec.

(** ** Values derived at render, and the controls they drive *)

Module Derived.
Import App.

(** [currentFeedback]: the feedback recorded for the image on display. *)
Definition currentFeedback (s : AppState) : option Feedback :=
  match currentImage s with
  | Some ((_ :: _) as url) => imageFeedbacks s !! url
  | Some [] | None => None
  end.

(** [isCurrentSaved]: some saved item has the image and the word on display.
    An undefined image, or the word of an absent definition, equals no
    string. *)
Definition isCurrentSaved (s : AppState) : bool :=
  existsb (fun item =>
             bool_decide (Some (si_imageUrl item) = currentImage s)
             && bool_decide (Some (si_word item) = wd_word <$> wordData s))
    (savedItems s).

(** The indices of the thumbnails on the page: one for every entry of a
    gallery of more than one image. *)
Definition thumbnails (s : AppState) : list nat :=
  if 1 <? length (gallery s) then seq 0 (length (gallery s)) else [].

(** The click handler of the thumbnail of index [idx]. *)
Definition selectThumbnail (idx : nat) : M unit :=
  set (setActiveImageIndex (Value idx)).

(** The button that reveals the additional meanings is on the page as long
    as the cell is null; an empty array is not null. *)
Definition revealOffered (s : AppState) : bool :=
  match additionalMeanings s with None => true | Some _ => false end.

End Derived.

(** ** The handlers of the audio button and of the additional meanings *)

Module Wide.
Import Gateway.

(** The effects of these handlers: those of the handlers above, the two
    loading flags they own, their requests, and the start of a playback
    with the data of the channel of its buffer. *)
Inductive effect :=
| Core (e : event)
| SetLoadingAudio (b : bool)
| SetLoadingMoreMeanings (b : bool)
| IssueMeanings (word : jsstring) (target : SupportedLanguage)
| IssueSpeech (text : jsstring)
| StartPlayback (rate : Z) (channelData : list Audio.float).

Definition W (A : Type) : Type := list effect * result A.

#[global] Instance W_ret : MRet W := fun A a => ([], Ok a).

#[global] Instance W_bind : MBind W := fun A B k m =>
  match m with
  | (t, Ok a) => let '(t', r) := k a in (t ++ t', r)
  | (t, Throw e) => (t, Throw e)
  end.

Definition perform (x : effect) : W unit := ([x], Ok tt).

(** A step that performs nothing and completes as [r] does. *)
Definition complete {A} (r : result A) : W A := ([], r).

(** [try { body } catch (e) { handler e }] *)
Definition attempt {A} (body : W A) (handler : exn → W A) : W A :=
  match body with
  | (t, Ok a) => (t, Ok a)
  | (t, Throw e) => let '(t', r) := handler e in (t ++ t', r)
  end.

(** [try { body } finally { cleanup }] *)
Definition ensure {A} (body : W A) (cleanup : W unit) : W A :=
  let '(t, r) := body in
  let '(t', r') := cleanup in
  (t ++ t', match r' with Ok _ => r | Throw e => Throw e end).

Definition apply_effect (s : AppState) (x : effect) : AppState :=
  match x with
  | Core e => apply_event s e
  | SetLoadingAudio b =>
      {| view := view s; query := query s; targetLanguage := targetLanguage s;
         nativeLanguage := nativeLanguage s; wordData := wordData s;
         gallery := gallery s; activeImageIndex := activeImageIndex s;
         additionalMeanings := additionalMeanings s;
         imageFeedbacks := imageFeedbacks s; savedItems := savedItems s;
         storyQuiz := storyQuiz s; loadingStory := loadingStory s;
         loadingWord := loadingWord s; loadingImage := loadingImage s;
         loadingAudio := b;
         loadingMoreMeanings := loadingMoreMeanings s;
         loadingNewImage := loadingNewImage s; isChatOpen := isChatOpen s;
         chatMessages := chatMessages s; chatInput := chatInput s;
         isChatSending := isChatSending s |}
  | SetLoadingMoreMeanings b =>
      {| view := view s; query := query s; targetLanguage := targetLanguage s;
         nativeLanguage := nativeLanguage s; wordData := wordData s;
         gallery := gallery s; activeImageIndex := activeImageIndex s;
         additionalMeanings := additionalMeanings s;
         imageFeedbacks := imageFeedbacks s; savedItems := savedItems s;
         storyQuiz := storyQuiz s; loadingStory := loadingStory s;
         loadingWord := loadingWord s; loadingImage := loadingImage s;
         loadingAudio := loadingAudio s;
         loadingMoreMeanings := b;
         loadingNewImage := loadingNewImage s; isChatOpen := isChatOpen s;
         chatMessages := chatMessages s; chatInput := chatInput s;
         isChatSending := isChatSending s |}
  | IssueMeanings _ _ | IssueSpeech _ | StartPlayback _ _ => s
  end.

Definition perform_all (t : list effect) (s : AppState) : AppState :=
  fold_left apply_effect t s.

(** The samples handed to the audio output, playback after playback. *)
Definition played (t : list effect) : list (list Audio.float) :=
  omap (fun x => match x with StartPlayback _ d => Some d | _ => None end) t.

Definition logged (t : list effect) : list string :=
  omap (fun x => match x with Core (ConsoleError l) => Some l | _ => None end) t.

Section Meanings.

(** [JSON.parse] followed by the cast to an array of meanings. *)
Variable parseAdditionalMeanings : jsstring → result (list AdditionalMeaning).

(** [getAdditionalMeanings], awaited where it is called. *)
Definition getAdditionalMeanings (word : jsstring) (target : SupportedLanguage)
    (response : TextResponse) : W (list AdditionalMeaning) :=
  perform (IssueMeanings word target);;
  text ← complete response;
  match text with
  | None | Some [] => mret []
  | Some t => complete (parseAdditionalMeanings t)
  end.

(** [handleLoadMoreMeanings] *)
Definition handleLoadMoreMeanings (s : AppState) (response : TextResponse)
    : W unit :=
  match wordData s with
  | None => mret tt
  | Some wd =>
      perform (SetLoadingMoreMeanings true);;
      ensure
        (attempt
           (meanings ← getAdditionalMeanings (wd_word wd) (targetLanguage s)
                         response;
            perform (Core (SetState (setAdditionalMeanings (Some meanings)))))
           (fun err => perform (Core (ConsoleError "Failed to load meanings"))))
        (perform (SetLoadingMoreMeanings false))
  end.

End Meanings.

Section Speech.

(** The byte order of the platform and its [atob], which refuses a text that
    is not base64. *)
Variable order : Audio.endianness.
Variable atob : jsstring → result jsstring.

(** [playPronunciation], awaited where it is called; [base64Audio] is what
    [response.candidates?.[0]?.content?.parts?.[0]?.inlineData?.data]
    evaluates to. *)
Definition playPronunciation (text : jsstring)
    (base64Audio : result (option jsstring)) : W unit :=
  perform (IssueSpeech text);;
  data ← complete base64Audio;
  match data with
  | None | Some [] => mret tt
  | Some base64 =>
      binaryString ← complete (atob base64);
      audioBuffer ← complete (Audio.decodeAudioData order
                                (Audio.decodeAudio binaryString));
      perform (StartPlayback Audio.sampleRate audioBuffer)
  end.

(** [handleAudioPlay] *)
Definition handleAudioPlay (s : AppState)
    (base64Audio : result (option jsstring)) : W unit :=
  match wordData s with
  | None => mret tt
  | Some wd =>
      ensure
        (attempt
           (perform (SetLoadingAudio true);;
            playPronunciation (wd_word wd) base64Audio)
           (fun err => perform (Core (ConsoleError "Audio playback failed"))))
        (perform (SetLoadingAudio false))
  end.

End Speech.

End Wide.

(** ** Sessions: the user's actions, one after the other *)

Module Session.
Import Gateway App Derived.

(** [setQuery(e.target.value)] *)
Definition typeQuery (q : jsstring) (s : AppState) : AppState :=
  {| view := view s; query := q; targetLanguage := targetLanguage s;
     nativeLanguage := nativeLanguage s; wordData := wordData s;
     gallery := gallery s; activeImageIndex := activeImageIndex s;
     additionalMeanings := additionalMeanings s;
     imageFeedbacks := imageFeedbacks s; savedItems := savedItems s;
     storyQuiz := storyQuiz s; loadingStory := loadingStory s;
     loadingWord := loadingWord s; loadingImage := loadingImage s;
     loadingAudio := loadingAudio s;
     loadingMoreMeanings := loadingMoreMeanings s;
     loadingNewImage := loadingNewImage s; isChatOpen := isChatOpen s;
     chatMessages := chatMessages s; chatInput := chatInput s;
     isChatSending := isChatSending s |}.

(** What the user does, with what the clock and the service answer. *)
Inductive action :=
| TypeQuery (q : jsstring)
| SubmitSearch (definition : TextResponse) (imageBytes : result (option jsstring))
| GenerateVariation (imageBytes : result (option jsstring))
| ClickThumbnail (idx : nat)
| ClickFeedback (type : Feedback)
| ClickSave (now_id now_ts : Z)
| ClickRemove (id : jsstring)
| TypeChat (input : jsstring)
| SubmitChat (now_user now_bot : Z) (response : TextResponse).

Section Steps.

Variable parseWordDefinition : jsstring → result WordDefinition.

(** One action, run to completion on the state it found: the sessions in
    which no handler is suspended when the next action comes.  The sessions
    in which handlers overlap are those of [Interleaved] below.  A thumbnail
    that is not on the page cannot be clicked. *)
Definition step (s : AppState) (a : action) : AppState :=
  match a with
  | TypeQuery q => typeQuery q s
  | SubmitSearch definition imageBytes =>
      run (trace (handleSearch parseWordDefinition s definition imageBytes)) s
  | GenerateVariation imageBytes =>
      run (trace (handleGenerateNewImage s imageBytes)) s
  | ClickThumbnail idx =>
      if bool_decide (idx ∈ thumbnails s) then run (trace (selectThumbnail idx)) s
      else s
  | ClickFeedback type => run (trace (toggleFeedback s type)) s
  | ClickSave now_id now_ts => run (trace (handleSaveItem s now_id now_ts)) s
  | ClickRemove id => run (trace (handleRemoveSavedItem id)) s
  | TypeChat input => apply_update (setChatInput input) s
  | SubmitChat now_user now_bot response =>
      run (trace (handleChatSubmit s now_user now_bot response)) s
  end.

Definition steps (actions : list action) (s : AppState) : AppState :=
  fold_left step actions s.

End Steps.

End Session.

(** ** Sessions in which handlers overlap *)

Module Interleaved.
Import Gateway App Derived.

(** A handler suspended at an [await].  None of the three handlers uses,
    after its suspension, anything it closed over but the promises. *)
Inductive suspended :=
| SearchAwaitsDetails
| SearchAwaitsImage
| VariationAwaitsImage
| ChatAwaitsResponse.

(** [handleSearch] up to [await detailsPromise]; nothing on a blank query. *)
Definition search_start (s : AppState) : list event * option suspended :=
  if negb (truthy (trim (query s))) then ([], None)
  else
    ([SetState (setView search);
      SetState (setLoadingWord true);
      SetState (setLoadingImage true);
      SetState (setWordData None);
      SetState (setGallery (Value []));
      SetState (setActiveImageIndex (Value 0));
      SetState (setAdditionalMeanings None);
      SetState (setImageFeedbacks (Value ∅));
      SetState (setChatMessages (Value []));
      SetState (setIsChatOpen false);
      Issue (DefinitionRequest (query s) (targetLanguage s) (nativeLanguage s));
      Issue (ImageRequest (query s) None)],
     Some SearchAwaitsDetails).

Definition search_finally : list event :=
  [SetState (setLoadingWord false); SetState (setLoadingImage false)].

Section Pieces.

Variable parseWordDefinition : jsstring → result WordDefinition.

(** [handleSearch] from the settlement of [detailsPromise] up to
    [await imagePromise], or to its end when the promise is rejected. *)
Definition search_after_details (definition : TextResponse)
    : list event * option suspended :=
  match settled (getWordDetails parseWordDefinition [] ENGLISH ENGLISH definition) with
  | (t, Ok details) =>
      (t ++ [SetState (setWordData (Some details));
             SetState (setLoadingWord false)],
       Some SearchAwaitsImage)
  | (t, Throw _) =>
      (t ++ ConsoleError "Error fetching data" :: search_finally, None)
  end.

End Pieces.

(** [handleSearch] from the settlement of [imagePromise] to its end. *)
Definition search_after_image (imageBytes : result (option jsstring))
    : list event :=
  match settled (generateWordImage [] None imageBytes) with
  | (t, Ok img) =>
      t ++ (if truthy img then [SetState (setGallery (Value [img]))] else [])
        ++ search_finally
  | (t, Throw _) => t ++ ConsoleError "Error fetching data" :: search_finally
  end.

(** [handleGenerateNewImage] up to its [await]; nothing without a word. *)
Definition variation_start (s : AppState) : list event * option suspended :=
  match wordData s with
  | None => ([], None)
  | Some wd =>
      let context :=
        if length (gallery s) =? 1
        then str "Abstract and colorful interpretation"
        else str "Real world scenario usage" in
      ([SetState (setLoadingNewImage true);
        Issue (ImageRequest (wd_word wd) (Some context))],
       Some VariationAwaitsImage)
  end.

(** [handleGenerateNewImage] from the settlement of the promise to its end. *)
Definition variation_after_image (imageBytes : result (option jsstring))
    : list event :=
  match settled (generateWordImage [] None imageBytes) with
  | (t, Ok newImg) =>
      t ++ (if truthy newImg then
              [SetState (setGallery (Updater (fun prev => prev ++ [newImg])));
               SetState (setActiveImageIndex (Updater (fun prev => prev + 1)))]
            else [])
        ++ [SetState (setLoadingNewImage false)]
  | (t, Throw _) =>
      t ++ [ConsoleError "Failed to generate new image";
            SetState (setLoadingNewImage false)]
  end.

(** [handleChatSubmit] up to its [await]; nothing on a blank input or
    without a word. *)
Definition chat_start (s : AppState) (now_user : Z)
    : list event * option suspended :=
  match truthy (trim (chatInput s)), wordData s with
  | true, Some wd =>
      let userMsg := {|
        cm_id := Number_toString now_user;
        cm_role := user;
        cm_text := chatInput s
      |} in
      ([SetState (setChatMessages (Updater (fun prev => prev ++ [userMsg])));
        SetState (setChatInput []);
        SetState (setIsChatSending true);
        Issue (ChatRequest ((fun m => (cm_role m, cm_text m)) <$> chatMessages s)
                 (cm_text userMsg) (wd_word wd)
                 (targetLanguage s) (nativeLanguage s))],
       Some ChatAwaitsResponse)
  | _, _ => ([], None)
  end.

(** [handleChatSubmit] from the settlement of the promise to its end. *)
Definition chat_after_response (now_bot : Z) (response : TextResponse)
    : list event :=
  match settled (chatAboutWord [] [] [] ENGLISH ENGLISH response) with
  | (t, Ok responseText) =>
      let botMsg := {|
        cm_id := Number_toString (now_bot + 1);
        cm_role := model;
        cm_text := match responseText with
                   | Some ((_ :: _) as text) => text
                   | Some [] | None => chat_fallback
                   end
      |} in
      t ++ [SetState (setChatMessages (Updater (fun prev => prev ++ [botMsg])));
            SetState (setIsChatSending false)]
  | (t, Throw _) =>
      t ++ [ConsoleError "Chat failed"; SetState (setIsChatSending false)]
  end.

(** The cells of the component and the handlers that are suspended. *)
Record system := System {
  cells : AppState;
  waiting : list suspended
}.

(** What happens, one thing at a time: the user acts, or a promise that the
    suspended handler of index [i] awaits settles.  The controls are taken to
    be enabled at all times, which the page allows and more. *)
Inductive occurrence :=
| QueryTyped (q : jsstring)
| SearchSubmitted
| VariationRequested
| ThumbnailClicked (idx : nat)
| FeedbackClicked (type : Feedback)
| SaveClicked (now_id now_ts : Z)
| RemoveClicked (id : jsstring)
| ChatTyped (input : jsstring)
| ChatSubmitted (now_user : Z)
| DetailsSettled (i : nat) (definition : TextResponse)
| ImageSettled (i : nat) (imageBytes : result (option jsstring))
| ChatSettled (i : nat) (now_bot : Z) (response : TextResponse).

(** A handler starts: its first part runs and, if it suspends, it joins the
    handlers that wait. *)
Definition started (sys : system) (part : list event * option suspended)
    : system :=
  {| cells := run part.1 (cells sys);
     waiting := waiting sys ++ match part.2 with
                               | Some k => [k]
                               | None => []
                               end |}.

(** The suspended handler of index [i] resumes: its next part runs, and it
    waits again or is done. *)
Definition resumed (sys : system) (i : nat) (part : list event * option suspended)
    : system :=
  {| cells := run part.1 (cells sys);
     waiting := match part.2 with
                | Some k => <[i := k]> (waiting sys)
                | None => delete i (waiting sys)
                end |}.

Section Occurrences.

Variable parseWordDefinition : jsstring → result WordDefinition.

Definition occur (sys : system) (o : occurrence) : system :=
  let s := cells sys in
  match o with
  | QueryTyped q =>
      {| cells := Session.typeQuery q s; waiting := waiting sys |}
  | SearchSubmitted => started sys (search_start s)
  | VariationRequested => started sys (variation_start s)
  | ThumbnailClicked idx =>
      if bool_decide (idx ∈ thumbnails s)
      then started sys (trace (selectThumbnail idx), None)
      else sys
  | FeedbackClicked type => started sys (trace (toggleFeedback s type), None)
  | SaveClicked now_id now_ts =>
      started sys (trace (handleSaveItem s now_id now_ts), None)
  | RemoveClicked id => started sys (trace (handleRemoveSavedItem id), None)
  | ChatTyped input =>
      {| cells := apply_update (setChatInput input) s; waiting := waiting sys |}
  | ChatSubmitted now_user => started sys (chat_start s now_user)
  | DetailsSettled i definition =>
      match waiting sys !! i with
      | Some SearchAwaitsDetails =>
          resumed sys i (search_after_details parseWordDefinition definition)
      | _ => sys
      end
  | ImageSettled i imageBytes =>
      match waiting sys !! i with
      | Some SearchAwaitsImage =>
          resumed sys i (search_after_image imageBytes, None)
      | Some VariationAwaitsImage =>
          resumed sys i (variation_after_image imageBytes, None)
      | _ => sys
      end
  | ChatSettled i now_bot response =>
      match waiting sys !! i with
      | Some ChatAwaitsResponse =>
          resumed sys i (chat_after_response now_bot response, None)
      | _ => sys
      end
  end.

Definition occur_all (os : list occurrence) (sys : system) : system :=
  fold_left occur os sys.

End Occurrences.

(** The component as it is mounted: no handler is suspended. *)
Definition mounted (hydrated : list SavedItem) : system :=
  {| cells := initialState hydrated; waiting := [] |}.

End Interleaved.

(** ** Vocabulary of the further properties *)

Module MoreSpec.
Import Gateway App Spec.

(** Every character is one that [trim] removes. *)
Definition blank (s : jsstring) : Prop := forallb is_white_space s = true.

(** A reference made by the gateway: the prefix of a data URL and a payload
    that is not empty. *)
Definition data_url (u : jsstring) : Prop :=
  ∃ payload, payload ≠ [] ∧ u = image_prefix ++ payload.

(** Every image reference the component holds is one the gateway made: the
    entries of the gallery, the keys of the feedback map, and the images of
    the saved items that were not read from local storage. *)
Definition references_are_data_urls (hydrated : list SavedItem) (s : AppState)
    : Prop :=
  Forall data_url (gallery s)
  ∧ (∀ url, is_Some (imageFeedbacks s !! url) → data_url url)
  ∧ Forall (fun item => item ∈ hydrated ∨ data_url (si_imageUrl item))
      (savedItems s).

(** The transcript is a sequence of questions, each with its answer. *)
Fixpoint question_answer (roles : list Role) : Prop :=
  match roles with
  | [] => True
  | user :: model :: rest => question_answer rest
  | _ => False
  end.

(** A binary string: every code unit is a byte. *)
Definition binary (s : jsstring) : Prop := Forall (fun c => (c < 256)%N) s.

(** A turn of the chat that the service answers: the message typed, the two
    readings of the clock, and the text of the response, if it has one. *)
Record turn := {
  typed : jsstring;
  at_user : Z;
  at_bot : Z;
  answer : option jsstring
}.

Definition turn_actions (t : turn) : list Session.action :=
  [Session.TypeChat (typed t);
   Session.SubmitChat (at_user t) (at_bot t) (Ok (answer t))].

(** The slice of the state that belongs to the word under inspection. *)
Definition session_slice (s : AppState) :=
  (wordData s, gallery s, activeImageIndex s, additionalMeanings s,
   imageFeedbacks s, chatMessages s).

(** The quiz a response leads to, if it leads to any. *)
Definition quiz_of (parse : jsstring → result StoryQuiz) (response : TextResponse)
    : option StoryQuiz :=
  match response with
  | Ok (Some (c :: t)) =>
      match parse (c :: t) with
      | Ok q => Some q
      | Throw _ => None
      end
  | _ => None
  end.

(** The batch of meanings a response leads to, if it leads to any: a
    response without text leads to the empty batch. *)
Definition meanings_of (parse : jsstring → result (list AdditionalMeaning))
    (response : TextResponse) : option (list AdditionalMeaning) :=
  match response with
  | Ok (Some (c :: t)) =>
      match parse (c :: t) with
      | Ok m => Some m
      | Throw _ => None
      end
  | Ok (Some []) | Ok None => Some []
  | Throw _ => None
  end.

End MoreSpec.

(** ** Vocabulary of the commits of a search *)

Module CommitSpec.
Import Gateway App Spec.








End CommitSpec.

(** ** Vocabulary of the audio decoder *)

Module AudioSpec.

(** The claim as the specification words it: any payload is decoded, into
    one frame for every two bytes, each in the closed interval from -1 to
    1. *)
Definition decodes_every_payload : Prop :=
  ∀ e (bytes : list Byte.byte),
    ∃ out,
      Audio.decodeAudioData e bytes = Ok out
      ∧ length out = length bytes / 2
      ∧ Forall Audio.in_unit_range out.

End AudioSpec.

(** * Properties *)

(** ** Shared facts about traces and strings *)

Lemma run_app t1 t2 s : run (t1 ++ t2) s = run t2 (run t1 s).
Proof. apply fold_left_app. Qed.

Lemma requests_app t1 t2 : requests (t1 ++ t2) = requests t1 ++ requests t2.
Proof. apply omap_app. Qed.

Lemma truthy_nonempty (s : jsstring) : truthy s = true ↔ s ≠ [].
Proof. destruct s; simpl; split; congruence. Qed.

(** Unfolds the monad of handlers down to the trace. *)
Ltac run_handler :=
  cbn [mbind mret M_bind M_ret set emit console_error throw call await
       try_catch try_finally trace fst snd issued settled app
       Gateway.getWordDetails Gateway.generateWordImage Gateway.chatAboutWord].

(** ** The search handler *)

Module SearchProperties.
Import Gateway App Spec.

Lemma reset_prefix_clears s0 : session_cleared (run reset_prefix s0).
Proof. repeat split. Qed.

Lemma reset_prefix_silent : requests reset_prefix = [].
Proof. reflexivity. Qed.

(** The image promise never rejects: every failure becomes the empty
    reference. *)
Lemma image_outcome_cases imageBytes :
  match imageBytes with
  | Ok (Some (b :: bs)) => image_outcome imageBytes = Ok (image_prefix ++ b :: bs)
  | _ => image_outcome imageBytes = Ok []
  end.
Proof. by destruct imageBytes as [[[|b bs]|]|e]. Qed.

Lemma image_outcome_total imageBytes : ∃ url, image_outcome imageBytes = Ok url.
Proof. destruct imageBytes as [[[|b bs]|]|e]; eexists; reflexivity. Qed.

(** The trace of a search: the reset, the two requests, then the commits. *)
Lemma handleSearch_trace parse s definition imageBytes :
  trim (query s) ≠ [] →
  ∃ log,
    trace (handleSearch parse s definition imageBytes)
    = reset_prefix
      ++ Issue (DefinitionRequest (query s) (targetLanguage s) (nativeLanguage s))
      :: Issue (ImageRequest (query s) None)
      :: log
    ∧ requests log = [].
Proof.
  intros Hq%truthy_nonempty. unfold handleSearch. rewrite Hq. cbn [negb].
  destruct definition as [[[|c t]|]|e]; run_handler;
    try destruct (parse (c :: t)) as [d|e'];
    destruct imageBytes as [[[|b bs]|]|e2]; run_handler;
    (eexists; split; [reflexivity|reflexivity]).
Qed.

(** C1. For every search submitted with a non-blank query, whatever the
    session held before and whatever the service answers, the handler first
    makes the setter calls that leave the definition absent, the gallery
    empty, the active index at zero, the additional meanings absent, the
    feedback map empty and the transcript empty, and only then issues the
    definition request and the image request; no request precedes the
    reset and none follows the two. *)
Theorem search_resets_session_before_requests
    parse (s s0 : AppState) definition imageBytes :
  trim (query s) ≠ [] →
  ∃ pre post,
    trace (handleSearch parse s definition imageBytes)
    = pre
      ++ Issue (DefinitionRequest (query s) (targetLanguage s) (nativeLanguage s))
      :: Issue (ImageRequest (query s) None)
      :: post
    ∧ requests pre = []
    ∧ requests post = []
    ∧ session_cleared (run pre s0).
Proof.
  intros Hq.
  destruct (handleSearch_trace parse s definition imageBytes Hq)
    as (log & Htrace & Hsilent).
  exists reset_prefix, log. split; [exact Htrace|].
  split; [apply reset_prefix_silent|]. split; [exact Hsilent|].
  apply reset_prefix_clears.
Qed.

Lemma search_resets_session_before_requests_witness :
  trim (query Samples.typed_gato) ≠ []
  ∧ ∃ pre post,
      trace (handleSearch Samples.parse_gato Samples.typed_gato
               (Ok (Some (str "{}"))) (Ok (Some (str "AAAA"))))
      = pre
        ++ Issue (DefinitionRequest (str "gato") SPANISH ENGLISH)
        :: Issue (ImageRequest (str "gato") None)
        :: post
      ∧ requests pre = []
      ∧ requests post = []
      ∧ session_cleared
          (run pre (Samples.showing [Samples.img "old"] 0 (str "hola"))).
Proof.
  assert (trim (query Samples.typed_gato) ≠ []) as Hq
    by (vm_compute; discriminate).
  split; [exact Hq|].
  exact (search_resets_session_before_requests Samples.parse_gato
           Samples.typed_gato (Samples.showing [Samples.img "old"] 0 (str "hola"))
           (Ok (Some (str "{}"))) (Ok (Some (str "AAAA"))) Hq).
Defined.

(** A blank query does nothing at all. *)
Lemma handleSearch_blank parse s definition imageBytes :
  trim (query s) = [] →
  handleSearch parse s definition imageBytes = mret tt.
Proof. intros Hq. unfold handleSearch. by rewrite Hq. Qed.




End SearchProperties.

(** ** The gallery *)

Module GalleryProperties.
Import Gateway App Spec.

(** What one invocation of the action does to the gallery and to the active
    index: a generated image is appended and the index is incremented; an
    empty reference changes neither. *)
Lemma handleGenerateNewImage_effect (s s0 : AppState) imageBytes wd :
  wordData s = Some wd →
  let final := after (handleGenerateNewImage s imageBytes) s0 in
  ∃ url, image_outcome imageBytes = Ok url
    ∧ gallery final = (if truthy url then gallery s0 ++ [url] else gallery s0)
    ∧ activeImageIndex final
      = (if truthy url then activeImageIndex s0 + 1 else activeImageIndex s0)
    ∧ loadingNewImage final = false.
Proof.
  intros Hwd final. subst final.
  unfold after, handleGenerateNewImage, image_outcome. rewrite Hwd.
  destruct imageBytes as [[[|b bs]|]|e]; run_handler;
    (eexists; split; [reflexivity|by repeat split]).
Qed.

(** Without a word on display the action does nothing. *)
Lemma handleGenerateNewImage_no_word (s : AppState) imageBytes :
  wordData s = None → handleGenerateNewImage s imageBytes = mret tt.
Proof. intros Hwd. unfold handleGenerateNewImage. by rewrite Hwd. Qed.

(** The incremented index is the index of the appended entry exactly when the
    image that was active is the last of a non-empty gallery. *)
Lemma incremented_index_is_last (g : list jsstring) (i : nat) (url : jsstring) :
  i + 1 = last_index (g ++ [url]) ↔ (g ≠ [] ∧ i = last_index g).
Proof.
  unfold last_index. rewrite length_app. simpl.
  destruct g as [|x g]; simpl; split; try lia.
  - intros [? _]. done.
  - intros ?. split; [done|lia].
Qed.

(** The scenario of the specification: one original image, two variations
    generated in sequence without touching the thumbnails. *)
Lemma two_variations_in_sequence :
  let s1 := Samples.showing [Samples.img "original"] 0 [] in
  let s2 := after (handleGenerateNewImage s1 (Ok (Some (str "first")))) s1 in
  let s3 := after (handleGenerateNewImage s2 (Ok (Some (str "second")))) s2 in
  gallery s3 = [Samples.img "original"; Samples.img "first"; Samples.img "second"]
  ∧ activeImageIndex s3 = 2
  ∧ currentImage s3 = Some (Samples.img "second").
Proof. by vm_compute. Qed.

(** C3. The action increments the active index instead of setting it to the
    index of the entry it appended.  With the first of two images selected, a
    successful variation leaves the index on the second image, not on the new
    third one; with an empty gallery (the first image failed), a successful
    variation leaves the index past the only entry, so that no image is
    displayed. *)
Theorem variation_index_misses_new_entry :
  (let s := Samples.showing [Samples.img "a"; Samples.img "b"] 0 [] in
   let final := after (handleGenerateNewImage s (Ok (Some (str "c")))) s in
   image_outcome (Ok (Some (str "c"))) = Ok (Samples.img "c")
   ∧ gallery final = [Samples.img "a"; Samples.img "b"; Samples.img "c"]
   ∧ last_index (gallery final) = 2
   ∧ activeImageIndex final = 1
   ∧ currentImage final = Some (Samples.img "b"))
  ∧ (let s := Samples.showing [] 0 [] in
     let final := after (handleGenerateNewImage s (Ok (Some (str "c")))) s in
     gallery final = [Samples.img "c"]
     ∧ last_index (gallery final) = 0
     ∧ activeImageIndex final = 1
     ∧ currentImage final = None).
Proof. by vm_compute. Qed.

End GalleryProperties.

(** ** The chat *)

Module ChatProperties.
Import Gateway App Spec.

(** What a submitted turn does to the transcript: the message of the user is
    appended; an answer, or the fallback in place of an empty or absent one,
    follows when the call returns, and nothing follows when it throws. *)
Lemma handleChatSubmit_effect (s s0 : AppState) now_user now_bot response wd :
  trim (chatInput s) ≠ [] → wordData s = Some wd →
  let final := after (handleChatSubmit s now_user now_bot response) s0 in
  chatMessages final
  = chatMessages s0
    ++ user_message s now_user
    :: match chat_outcome response with
       | Ok (Some (c :: text)) => [bot_message now_bot (c :: text)]
       | Ok (Some []) | Ok None => [bot_message now_bot chat_fallback]
       | Throw _ => []
       end.
Proof.
  intros Hin%truthy_nonempty Hwd final. subst final.
  unfold after, handleChatSubmit, chat_outcome. rewrite Hin, Hwd.
  destruct response as [[[|c text]|]|e]; run_handler;
    cbn [run fold_left apply_event apply_update chatMessages resolve];
    by rewrite <- ?app_assoc.
Qed.

(** When the call returns, the transcript ends with a message of the
    assistant, the fallback if the answer is empty or absent. *)
Lemma chat_answer_or_fallback (s s0 : AppState) now_user now_bot text wd :
  trim (chatInput s) ≠ [] → wordData s = Some wd →
  let final := after (handleChatSubmit s now_user now_bot (Ok text)) s0 in
  last_role (chatMessages final) = Some model
  ∧ (text = None ∨ text = Some [] →
     last (chatMessages final) = Some (bot_message now_bot chat_fallback)).
Proof.
  intros Hin Hwd final. subst final.
  rewrite (handleChatSubmit_effect s s0 now_user now_bot (Ok text) wd Hin Hwd).
  unfold last_role, chat_outcome. cbn.
  destruct text as [[|c text]|]; rewrite last_app; cbn.
  all: split; [reflexivity|].
  all: intros [H|H]; first [discriminate H | reflexivity].
Qed.

(** C6. When the call of the service throws, the handler logs the error and
    appends nothing: the transcript ends with the message of the user, and no
    message of the assistant follows it. *)
Theorem chat_throw_leaves_no_assistant_message :
  let s := Samples.showing [Samples.img "a"] 0 (str "Is this word formal?") in
  let final := after (handleChatSubmit s 1000 2000 (Throw ServiceFailure)) s in
  trim (chatInput s) ≠ []
  ∧ chat_outcome (Throw ServiceFailure) = Throw ServiceFailure
  ∧ chatMessages final = [user_message s 1000]
  ∧ last_role (chatMessages final) = Some user
  ∧ ConsoleError "Chat failed"
    ∈ trace (handleChatSubmit s 1000 2000 (Throw ServiceFailure)).
Proof.
  split; [vm_compute; discriminate|].
  split; [reflexivity|]. split; [reflexivity|]. split; [reflexivity|].
  vm_compute. repeat first [apply list_elem_of_here | apply list_elem_of_further].
Qed.

End ChatProperties.

(** ** The collection store *)

Module CollectionProperties.
Import App Spec.

Lemma save_updater_found newItem prev :
  (∃ item, item ∈ prev ∧ pair_of item = pair_of newItem) →
  save_updater newItem prev = prev.
Proof.
  intros (item & Hin & Heq). unfold save_updater.
  replace (existsb _ prev) with true; [done|].
  symmetry. apply existsb_exists. exists item.
  split; [by apply list_elem_of_In|].
  injection Heq as Hw Hi. by rewrite !bool_decide_eq_true_2.
Qed.

Lemma save_updater_fresh newItem prev :
  pair_of newItem ∉ (pair_of <$> prev) →
  save_updater newItem prev = newItem :: prev.
Proof.
  intros Hfresh. unfold save_updater.
  destruct (existsb _ prev) eqn:Hex; [|done].
  apply existsb_exists in Hex as (item & Hin%list_elem_of_In & Hb).
  apply andb_prop in Hb as [Hw%bool_decide_eq_true Hi%bool_decide_eq_true].
  exfalso. apply Hfresh. apply list_elem_of_fmap. exists item.
  split; [|done]. unfold pair_of. by rewrite Hw, Hi.
Qed.

Lemma save_updater_cases newItem prev :
  ((pair_of newItem ∈ (pair_of <$> prev)) ∧ (save_updater newItem prev = prev))
  ∨ ((pair_of newItem ∉ (pair_of <$> prev))
     ∧ (save_updater newItem prev = newItem :: prev)).
Proof.
  destruct (decide (pair_of newItem ∈ (pair_of <$> prev))) as [Hin|Hout].
  - left. split; [done|]. apply save_updater_found.
    apply list_elem_of_fmap in Hin as (item & Heq & Hin). eauto.
  - right. split; [done|]. by apply save_updater_fresh.
Qed.

Lemma save_updater_unique newItem prev :
  unique_pairs prev → unique_pairs (save_updater newItem prev).
Proof.
  intros Hu. destruct (save_updater_cases newItem prev) as [[_ ->]|[Hout ->]];
    [done|].
  unfold unique_pairs. rewrite fmap_cons. by apply NoDup_cons.
Qed.

(** Removal keeps the invariant too, so that it holds of every collection
    built from the empty one by saving and removing. *)
Lemma remove_unique id prev :
  unique_pairs prev →
  unique_pairs (List.filter (fun item => negb (bool_decide (si_id item = id))) prev).
Proof.
  unfold unique_pairs. induction prev as [|x prev IH]; [done|].
  rewrite fmap_cons. intros [Hx Hp]%NoDup_cons. simpl.
  destruct (negb _); [|by apply IH].
  rewrite fmap_cons. apply NoDup_cons. split; [|by apply IH].
  intros (y & Heq & Hy)%list_elem_of_fmap.
  apply list_elem_of_In, filter_In in Hy.
  apply Hx. apply list_elem_of_fmap. exists y.
  split; [done|]. apply list_elem_of_In. tauto.
Qed.

Lemma handleSaveItem_effect (s s0 : AppState) now_id now_ts wd img :
  wordData s = Some wd → currentImage s = Some img → img ≠ [] →
  savedItems (after (handleSaveItem s now_id now_ts) s0)
  = save_updater {| si_id := Number_toString now_id; si_word := wd_word wd;
                    si_imageUrl := img; si_definition := wd_definition wd;
                    si_timestamp := now_ts |} (savedItems s0).
Proof.
  intros Hwd Himg Hne. unfold after, handleSaveItem. rewrite Hwd, Himg.
  by destruct img.
Qed.

(** C2. Saving the word and the image on display: if the collection holds an
    item with that word and that image reference, it is left as it is;
    otherwise exactly one item, carrying them, is put at its front.  Hence a
    collection without two items of one (word, image) pair stays so, a
    collection ordered most recent first stays so as long as the clock does
    not run backwards, and saving a second time changes nothing. *)
Theorem save_is_idempotent_and_unique
    (s s0 : AppState) (now_id now_ts : Z) wd img :
  wordData s = Some wd → currentImage s = Some img → img ≠ [] →
  let newItem := {| si_id := Number_toString now_id; si_word := wd_word wd;
                    si_imageUrl := img; si_definition := wd_definition wd;
                    si_timestamp := now_ts |} in
  let prev := savedItems s0 in
  let saved := after (handleSaveItem s now_id now_ts) s0 in
  ((∃ item, item ∈ prev ∧ si_word item = wd_word wd ∧ si_imageUrl item = img) →
   savedItems saved = prev)
  ∧ ((∀ item, item ∈ prev →
        ¬ (si_word item = wd_word wd ∧ si_imageUrl item = img)) →
     savedItems saved = newItem :: prev)
  ∧ (unique_pairs prev → unique_pairs (savedItems saved))
  ∧ (most_recent_first prev →
     (∀ item, item ∈ prev → (si_timestamp item <= now_ts)%Z) →
     most_recent_first (savedItems saved))
  ∧ (∀ now_id' now_ts',
       savedItems (after (handleSaveItem s now_id' now_ts') saved)
       = savedItems saved).
Proof.
  intros Hwd Himg Hne newItem prev saved. subst saved prev.
  rewrite (handleSaveItem_effect s s0 now_id now_ts wd img Hwd Himg Hne).
  fold newItem. repeat split.
  - intros (item & Hin & Hw & Hi). apply save_updater_found.
    exists item. split; [done|]. unfold pair_of. by rewrite Hw, Hi.
  - intros Hnone. apply save_updater_fresh.
    intros (item & Heq & Hin)%list_elem_of_fmap.
    apply (Hnone item Hin). injection Heq as Hw Hi. done.
  - apply save_updater_unique.
  - intros Hsorted Hclock.
    destruct (save_updater_cases newItem (savedItems s0)) as [[_ ->]|[_ ->]];
      [done|].
    constructor; [done|].
    destruct (savedItems s0) as [|x l] eqn:Hl; constructor.
    simpl. apply Hclock. apply list_elem_of_here.
  - intros now_id' now_ts'.
    rewrite (handleSaveItem_effect s _ now_id' now_ts' wd img Hwd Himg Hne).
    rewrite (handleSaveItem_effect s s0 now_id now_ts wd img Hwd Himg Hne).
    fold newItem. apply save_updater_found.
    destruct (save_updater_cases newItem (savedItems s0))
      as [[Hin ->]|[_ ->]].
    + apply list_elem_of_fmap in Hin as (item & Heq & Hin).
      exists item. split; [done|]. by rewrite <- Heq.
    + exists newItem. split; [apply list_elem_of_here|done].
Qed.

Lemma save_is_idempotent_and_unique_witness :
  let s := Samples.showing [Samples.img "a"; Samples.img "b"] 1 [] in
  wordData s = Some Samples.gato
  ∧ currentImage s = Some (Samples.img "b")
  ∧ Samples.img "b" ≠ []
  ∧ savedItems (after (handleSaveItem s 1700000000000 1700000000000) s)
    = [{| si_id := str "1700000000000"; si_word := str "gato";
          si_imageUrl := Samples.img "b"; si_definition := str "animal felino";
          si_timestamp := 1700000000000 |}].
Proof.
  intros s.
  assert (wordData s = Some Samples.gato) as Hwd by reflexivity.
  assert (currentImage s = Some (Samples.img "b")) as Himg by reflexivity.
  assert (Samples.img "b" ≠ []) as Hne by (vm_compute; discriminate).
  split; [exact Hwd|]. split; [exact Himg|]. split; [exact Hne|].
  refine (proj1 (proj2 (save_is_idempotent_and_unique s s 1700000000000
                          1700000000000 Samples.gato (Samples.img "b")
                          Hwd Himg Hne)) _).
  intros item Hin. vm_compute in Hin. inversion Hin.
Defined.

End CollectionProperties.

(** ** Feedback on the images *)

Module FeedbackProperties.
Import App Spec.

Lemma toggleFeedback_effect (s s0 : AppState) type url :
  currentImage s = Some url → url ≠ [] →
  imageFeedbacks (after (toggleFeedback s type) s0)
  = toggleFeedback_updater url type (imageFeedbacks s0).
Proof.
  intros Himg Hne. unfold after, toggleFeedback. rewrite Himg. by destruct url.
Qed.

(** With no image on display the buttons do nothing. *)
Lemma toggleFeedback_no_image (s : AppState) type :
  currentImage s = None ∨ currentImage s = Some [] →
  toggleFeedback s type = mret tt.
Proof. intros [H|H]; unfold toggleFeedback; by rewrite H. Qed.

(** C7. Feedback is keyed by the reference of the image on display.  Applying
    the value recorded for it removes the entry; applying the other value
    replaces the recorded one; applying a value when none is recorded records
    it; the entries of all other references stay as they are.  So the same
    value applied twice in a row to an image without feedback leaves the map
    as it was. *)
Theorem feedback_is_a_toggle (s s0 : AppState) (type : Feedback) url :
  currentImage s = Some url → url ≠ [] →
  let before := imageFeedbacks s0 in
  let toggled := after (toggleFeedback s type) s0 in
  (before !! url = Some type → imageFeedbacks toggled !! url = None)
  ∧ (∀ other, before !! url = Some other → other ≠ type →
       imageFeedbacks toggled !! url = Some type)
  ∧ (before !! url = None → imageFeedbacks toggled !! url = Some type)
  ∧ (∀ url', url' ≠ url → imageFeedbacks toggled !! url' = before !! url')
  ∧ (before !! url = None →
     imageFeedbacks (after (toggleFeedback s type) toggled) = before).
Proof.
  intros Himg Hne before toggled. subst before toggled.
  rewrite !(toggleFeedback_effect s _ type url Himg Hne).
  unfold toggleFeedback_updater. repeat split.
  - intros Hsame. rewrite decide_True by done. apply lookup_delete_eq.
  - intros other Hother Hdiff. rewrite decide_False by congruence.
    apply lookup_insert_eq.
  - intros Hnone. rewrite decide_False by congruence. apply lookup_insert_eq.
  - intros url' Hurl'. case_decide.
    + by apply lookup_delete_ne.
    + by apply lookup_insert_ne.
  - intros Hnone. rewrite (decide_False (P := imageFeedbacks s0 !! url = _))
      by congruence.
    rewrite decide_True by apply lookup_insert_eq.
    rewrite delete_insert_eq. by apply delete_id.
Qed.

Lemma feedback_is_a_toggle_witness :
  let s := Samples.showing [Samples.img "a"; Samples.img "b"] 1 [] in
  currentImage s = Some (Samples.img "b")
  ∧ Samples.img "b" ≠ []
  ∧ imageFeedbacks (after (toggleFeedback s like) s) !! Samples.img "b"
    = Some like.
Proof.
  intros s.
  assert (currentImage s = Some (Samples.img "b")) as Himg by reflexivity.
  assert (Samples.img "b" ≠ []) as Hne by (vm_compute; discriminate).
  split; [exact Himg|]. split; [exact Hne|].
  refine (proj1 (proj2 (proj2 (feedback_is_a_toggle s s like (Samples.img "b")
                                 Himg Hne))) _).
  reflexivity.
Defined.

End FeedbackProperties.

(** ** The story composer *)

Module StoryProperties.
Import Gateway Story Spec.

Lemma insert_by_perm cmp k x sorted :
  (insert_by cmp k x sorted).1 ≡ₚ x :: sorted.
Proof.
  revert k. induction sorted as [|y ys IH]; intros k; [done|].
  cbn [insert_by]. destruct (cmp k); [done|done|].
  specialize (IH (S k)). destruct (insert_by cmp (S k) x ys) as [r k'].
  cbn in *. rewrite IH. apply Permutation_swap.
Qed.

Lemma insertion_sort_from_perm cmp k l :
  (insertion_sort_from cmp k l).1 ≡ₚ l.
Proof.
  revert k. induction l as [|x xs IH]; intros k; [done|].
  cbn [insertion_sort_from]. specialize (IH k).
  destruct (insertion_sort_from cmp k xs) as [sorted k'].
  rewrite insert_by_perm. cbn in IH. by rewrite IH.
Qed.

(** Insertion sort is an engine. *)
#[local] Instance insertion_engine : SortEngine := {|
  array_sort := insertion_sort;
  array_sort_perm cmp l := insertion_sort_from_perm cmp 0 l
|}.

(** [Array.from(new Set(xs))] has no duplicates and the elements of [xs]. *)
Lemma fold_Set_add_spec xs seen :
  NoDup seen →
  NoDup (fold_left Set_add xs seen)
  ∧ ∀ x, x ∈ fold_left Set_add xs seen ↔ x ∈ seen ∨ x ∈ xs.
Proof.
  revert seen. induction xs as [|y xs IH]; intros seen Hseen.
  { split; [done|]. intros x. rewrite elem_of_nil. tauto. }
  cbn [fold_left]. unfold Set_add at 2 4. case_bool_decide as Hy.
  - destruct (IH seen Hseen) as [Hnd Hel]. split; [done|].
    intros x. rewrite Hel, elem_of_cons.
    split; [intros [?|?]; auto|intros [?|[->|?]]; auto].
  - assert (NoDup (seen ++ [y])) as Hnd'.
    { apply NoDup_app. split; [done|]. split; [|apply NoDup_singleton].
      intros x Hx ->%list_elem_of_singleton. done. }
    destruct (IH _ Hnd') as [Hnd Hel]. split; [done|].
    intros x. rewrite Hel, elem_of_app, list_elem_of_singleton, elem_of_cons.
    tauto.
Qed.

Lemma fold_Set_add_distinct xs seen :
  NoDup (seen ++ xs) → fold_left Set_add xs seen = seen ++ xs.
Proof.
  revert seen. induction xs as [|y xs IH]; intros seen Hnd.
  { by rewrite app_nil_r. }
  cbn [fold_left]. unfold Set_add at 2. rewrite bool_decide_eq_false_2.
  - rewrite IH; rewrite <- app_assoc; done.
  - apply NoDup_app in Hnd as (_ & Hdisj & _). intros Hy.
    apply (Hdisj y Hy). apply list_elem_of_here.
Qed.

Lemma Array_from_Set_distinct xs : NoDup xs → Array_from_Set xs = xs.
Proof. intros Hnd. by apply (fold_Set_add_distinct xs []). Qed.

Section WithEngine.
Context `{engine : SortEngine}.

(** The subset and the store after the first statement of the generator. *)
Lemma select_subset_spec (h : heap) words l cmp :
  h !! words = Some l →
  select_subset h words cmp
  = Some (if 8 <? length l
          then (<[words := array_sort cmp l]> h, take 8 (array_sort cmp l))
          else (h, l)).
Proof.
  intros Hl. unfold select_subset. rewrite Hl.
  cbn [mbind option_bind]. by destruct (8 <? length l).
Qed.

Lemma subset_of_many l cmp :
  8 < length l →
  length (take 8 (array_sort cmp l)) = 8
  ∧ take 8 (array_sort cmp l) ⊆+ l
  ∧ (NoDup l → NoDup (take 8 (array_sort cmp l))).
Proof.
  intros Hlen. pose proof (array_sort_perm cmp l) as Hperm.
  split; [|split].
  - rewrite length_take, (Permutation_length Hperm). lia.
  - rewrite <- Hperm at 2. apply sublist_submseteq, sublist_take.
  - intros Hnd. rewrite <- Hperm in Hnd.
    exact (sublist_NoDup _ _ Hnd (sublist_take _ _)).
Qed.

End WithEngine.

(** C5. The request of the story generator embeds the words of a subset
    joined by commas.  Given more than eight words, that subset has exactly
    eight elements, all drawn from the words given, each at most as often as
    it was given, so that distinct words stay distinct; given eight words or
    fewer, it is the whole list.  In particular a wordbook with ten items of
    ten distinct words makes the handler issue one request, with eight of
    them. *)
Theorem story_request_embeds_eight_words `{engine : SortEngine} :
  (∀ parse (h : heap) words l target cmp response,
     h !! words = Some l →
     ∃ h' subset rest,
       generateStoryFromWords parse h words target cmp response
       = Some (h', Async [Issue (StoryRequest (join (str ", ") subset) target)] rest)
       ∧ (8 < length l →
          length subset = 8 ∧ subset ⊆+ l ∧ (NoDup l → NoDup subset))
       ∧ (length l ≤ 8 → subset = l))
  ∧ (∀ parse (s : AppState) (h : heap) cmp response,
       length (savedItems s) = 10 → NoDup (si_word <$> savedItems s) →
       ∃ subset,
         requests (trace (handleGenerateStory parse s h cmp response).2)
         = [StoryRequest (join (str ", ") subset) (targetLanguage s)]
         ∧ length subset = 8 ∧ NoDup subset
         ∧ subset ⊆+ (si_word <$> savedItems s)).
Proof.
  split.
  - intros parse h words l target cmp response Hl.
    unfold generateStoryFromWords. rewrite (select_subset_spec h words l cmp Hl).
    destruct (8 <? length l) eqn:Hlen; cbn [mbind option_bind];
      eexists _, _, _; (split; [reflexivity|]).
    + apply Nat.ltb_lt in Hlen. split; [intros _; by apply subset_of_many|lia].
    + apply Nat.ltb_ge in Hlen. split; [lia|done].
  - intros parse s h cmp response Hten Hnd.
    unfold handleGenerateStory. rewrite Hten. cbn [Nat.eqb].
    rewrite (Array_from_Set_distinct _ Hnd).
    unfold generateStoryFromWords.
    erewrite select_subset_spec by apply lookup_insert_eq.
    assert (length (si_word <$> savedItems s) = 10) as Hlen
      by (by rewrite length_fmap).
    rewrite Hlen. cbn [Nat.ltb Nat.leb mbind option_bind snd].
    exists (take 8 (array_sort cmp (si_word <$> savedItems s))).
    destruct (subset_of_many (si_word <$> savedItems s) cmp) as (H8 & Hsub & Hdis);
      [lia|].
    split; [|by auto].
    destruct response as [[[|c t]|]|e]; run_handler;
      try destruct (parse (c :: t)); reflexivity.
Qed.

Lemma story_request_embeds_eight_words_witness :
  StorySamples.ten_store !! 1%positive = Some StorySamples.ten_words
  ∧ ∃ h' subset rest,
      generateStoryFromWords (engine := insertion_engine)
        StorySamples.parse_nothing StorySamples.ten_store 1%positive ENGLISH
        StorySamples.always_positive (Throw ServiceFailure)
      = Some (h', Async [Issue (StoryRequest (join (str ", ") subset) ENGLISH)] rest)
      ∧ (8 < length StorySamples.ten_words →
         length subset = 8 ∧ subset ⊆+ StorySamples.ten_words
         ∧ (NoDup StorySamples.ten_words → NoDup subset))
      ∧ (length StorySamples.ten_words ≤ 8 → subset = StorySamples.ten_words).
Proof.
  assert (StorySamples.ten_store !! 1%positive = Some StorySamples.ten_words)
    as Hl by reflexivity.
  split; [exact Hl|].
  exact (proj1 (story_request_embeds_eight_words (engine := insertion_engine))
           StorySamples.parse_nothing StorySamples.ten_store 1%positive
           StorySamples.ten_words ENGLISH StorySamples.always_positive
           (Throw ServiceFailure) Hl).
Defined.

(** C10. The generator sorts the array it is given, not a copy.  Given more
    than eight words, the array of the caller holds afterwards what the sort
    of the engine made of it, a rearrangement of the words it held, and every
    other array of the store is as it was; given eight words or fewer, the
    store is unchanged.  The rearrangement can be a real one: under insertion
    sort and a comparator that answers with a positive number every time, the
    ten words come back in reverse order. *)
Theorem story_generator_sorts_in_place :
  (∀ `{engine : SortEngine} parse (h : heap) words l target cmp response,
     h !! words = Some l →
     ∃ h' story,
       generateStoryFromWords parse h words target cmp response = Some (h', story)
       ∧ (8 < length l →
          h' !! words = Some (array_sort cmp l)
          ∧ array_sort cmp l ≡ₚ l
          ∧ ∀ other, other ≠ words → h' !! other = h !! other)
       ∧ (length l ≤ 8 → h' = h))
  ∧ (∃ h' story,
       generateStoryFromWords (engine := insertion_engine)
         StorySamples.parse_nothing StorySamples.ten_store 1%positive ENGLISH
         StorySamples.always_positive (Throw ServiceFailure)
       = Some (h', story)
       ∧ StorySamples.ten_store !! 1%positive = Some StorySamples.ten_words
       ∧ h' !! 1%positive = Some (rev StorySamples.ten_words)).
Proof.
  split.
  - intros engine parse h words l target cmp response Hl.
    unfold generateStoryFromWords. rewrite (select_subset_spec h words l cmp Hl).
    destruct (8 <? length l) eqn:Hlen; cbn [mbind option_bind];
      eexists _, _; (split; [reflexivity|]).
    + apply Nat.ltb_lt in Hlen. split; [intros _|lia].
      split; [apply lookup_insert_eq|]. split; [apply array_sort_perm|].
      intros other Hother. by apply lookup_insert_ne.
    + apply Nat.ltb_ge in Hlen. split; [lia|done].
  - eexists _, _. split; [reflexivity|]. split; [reflexivity|].
    by vm_compute.
Qed.

Lemma story_generator_sorts_in_place_witness :
  StorySamples.ten_store !! 1%positive = Some StorySamples.ten_words
  ∧ ∃ h' story,
      generateStoryFromWords (engine := insertion_engine)
        StorySamples.parse_nothing StorySamples.ten_store 1%positive ENGLISH
        StorySamples.always_positive (Ok None)
      = Some (h', story)
      ∧ (8 < length StorySamples.ten_words →
         h' !! 1%positive
         = Some (array_sort StorySamples.always_positive StorySamples.ten_words)
         ∧ array_sort StorySamples.always_positive StorySamples.ten_words
           ≡ₚ StorySamples.ten_words
         ∧ ∀ other, other ≠ 1%positive →
             h' !! other = StorySamples.ten_store !! other)
      ∧ (length StorySamples.ten_words ≤ 8 → h' = StorySamples.ten_store).
Proof.
  assert (StorySamples.ten_store !! 1%positive = Some StorySamples.ten_words)
    as Hl by reflexivity.
  split; [exact Hl|].
  exact (proj1 story_generator_sorts_in_place insertion_engine
           StorySamples.parse_nothing StorySamples.ten_store 1%positive
           StorySamples.ten_words ENGLISH StorySamples.always_positive
           (Ok None) Hl).
Defined.

End StoryProperties.

(** ** The audio decode utility *)

Module AudioProperties.
Import Audio.

(** A loop that stores [f i] at every index below [k] of a buffer. *)
Lemma fill_loop {A} (f : nat → A) (k : nat) (buffer : list A) :
  k ≤ length buffer →
  fold_left (fun data i => <[i := f i]> data) (seq 0 k) buffer
  = (f <$> seq 0 k) ++ drop k buffer.
Proof.
  induction k as [|k IH]; intros Hk; [by rewrite drop_0|].
  rewrite seq_S, fold_left_app, fmap_app. cbn [fold_left fmap list_fmap plus].
  rewrite IH by lia. rewrite <- app_assoc. cbn [app].
  rewrite insert_app_r_alt by (rewrite length_fmap, length_seq; lia).
  rewrite length_fmap, length_seq, Nat.sub_diag.
  replace (S k) with (k + 1) by lia. rewrite <- drop_drop.
  destruct (drop k buffer) as [|x rest] eqn:Hdrop; [|done].
  apply (f_equal length) in Hdrop. rewrite length_drop in Hdrop.
  simpl in Hdrop. lia.
Qed.

Lemma fmap_lookup_seq {A B} (g : option A → B) (l : list A) :
  (fun i => g (l !! i)) <$> seq 0 (length l) = (fun x => g (Some x)) <$> l.
Proof.
  apply list_eq. intros i. rewrite !list_lookup_fmap.
  destruct (decide (i < length l)) as [Hi|Hi].
  - rewrite lookup_seq_lt by done. cbn.
    destruct (lookup_lt_is_Some_2 l i Hi) as [x Hx]. by rewrite Hx.
  - rewrite lookup_seq_ge by lia. by rewrite lookup_ge_None_2 by lia.
Qed.

(** [decodeAudio] copies the low byte of every character. *)
Lemma decodeAudio_bytes (binaryString : jsstring) :
  decodeAudio binaryString = ToUint8 <$> binaryString.
Proof.
  unfold decodeAudio.
  rewrite (fill_loop (fun i => ToUint8 (binaryString !!! i)))
    by (by rewrite length_replicate).
  rewrite drop_ge by (by rewrite length_replicate).
  rewrite app_nil_r. apply list_eq. intros i. rewrite !list_lookup_fmap.
  destruct (decide (i < length binaryString)) as [Hi|Hi].
  - rewrite lookup_seq_lt by done. cbn.
    destruct (lookup_lt_is_Some_2 binaryString i Hi) as [x Hx].
    by rewrite (list_lookup_total_correct _ _ _ Hx), Hx.
  - rewrite lookup_seq_ge by lia. by rewrite lookup_ge_None_2 by lia.
Qed.

Lemma byte_val_range b : (0 <= byte_val b < 256)%Z.
Proof. unfold byte_val. pose proof (Byte.to_N_bounded b). lia. Qed.

Lemma lor_shift_range (a b : Z) :
  (0 <= a < 256)%Z → (0 <= b < 256)%Z →
  (0 <= Z.lor a (Z.shiftl b 8) < 65536)%Z.
Proof.
  intros Ha Hb.
  assert (0 <= Z.shiftl b 8 < 65536)%Z as Hs.
  { rewrite Z.shiftl_mul_pow2 by lia. change (2 ^ 8)%Z with 256%Z. lia. }
  assert (0 <= Z.lor a (Z.shiftl b 8))%Z as Hnn by (apply Z.lor_nonneg; lia).
  split; [done|].
  destruct (decide (Z.lor a (Z.shiftl b 8) = 0%Z)) as [->|Hz]; [lia|].
  change 65536%Z with (2 ^ 16)%Z. apply Z.log2_lt_pow2; [lia|].
  rewrite Z.log2_lor by lia. apply Z.max_lub_lt.
  - destruct (decide (a = 0%Z)) as [->|Ha0]; [done|].
    apply Z.log2_lt_pow2; [lia|]. change (2 ^ 16)%Z with 65536%Z. lia.
  - destruct (decide (Z.shiftl b 8 = 0%Z)) as [->|Hb0]; [done|].
    apply Z.log2_lt_pow2; [lia|]. change (2 ^ 16)%Z with 65536%Z. lia.
Qed.

(** Every element of the typed array is an integer of sixteen bits. *)
Lemma int16_range e b0 b1 : (-32768 <= int16 e b0 b1 <= 32767)%Z.
Proof.
  pose proof (byte_val_range b0) as H0. pose proof (byte_val_range b1) as H1.
  unfold int16. destruct e.
  - pose proof (lor_shift_range _ _ H0 H1).
    destruct (Z.ltb_spec (Z.lor (byte_val b0) (Z.shiftl (byte_val b1) 8)) 32768);
      lia.
  - pose proof (lor_shift_range _ _ H1 H0).
    destruct (Z.ltb_spec (Z.lor (byte_val b1) (Z.shiftl (byte_val b0) 8)) 32768);
      lia.
Qed.

Lemma int16_elements_spec e bytes :
  (length (int16_elements e bytes) = length bytes / 2
   ∧ Forall (fun v => (-32768 <= v <= 32767)%Z) (int16_elements e bytes))
  ∧ ∀ b, length (int16_elements e (b :: bytes)) = S (length bytes) / 2
         ∧ Forall (fun v => (-32768 <= v <= 32767)%Z)
             (int16_elements e (b :: bytes)).
Proof.
  induction bytes as [|b1 rest [IH0 IH1]].
  { split; [by split|]. intros b. by split. }
  split; [apply IH1|].
  intros b. cbn [int16_elements length]. destruct IH0 as [Hlen Hall]. split.
  - rewrite Hlen. pose proof (Nat.div_add_l 1 2 (length rest)) as Hdiv.
    change (1 * 2 + length rest) with (S (S (length rest))) in Hdiv.
    rewrite Hdiv by lia. lia.
  - constructor; [apply int16_range|done].
Qed.

Lemma unit_range_of_int16 v :
  (-32768 <= v <= 32767)%Z → in_unit_range (div_32768 (Some v)).
Proof. intros Hv. unfold in_unit_range, div_32768, Qle. simpl. lia. Qed.

(** On a payload with an odd number of bytes the typed array cannot be laid
    over the buffer and the decoder throws. *)
Lemma decodeAudioData_odd e bytes :
  Nat.even (length bytes) = false → decodeAudioData e bytes = Throw RangeError.
Proof.
  intros Hodd. unfold decodeAudioData, Int16Array_of_buffer. by rewrite Hodd.
Qed.

(** A payload without a sample asks for a buffer of no frame, which the
    audio context refuses. *)
Lemma decodeAudioData_empty e : decodeAudioData e [] = Throw NotSupportedError.
Proof. reflexivity. Qed.

(** C9, as stated, fails on the payloads that are not a whole number of
    samples, one at least: on a single byte the typed array cannot be laid
    over the buffer, on no byte at all the audio context refuses the buffer,
    and the decoder throws instead of returning samples. *)
Lemma payload_without_whole_samples_is_refused :
  decodeAudioData LittleEndian [Byte.x01] = Throw RangeError
  ∧ decodeAudioData BigEndian [Byte.x01] = Throw RangeError
  ∧ decodeAudioData LittleEndian [] = Throw NotSupportedError
  ∧ ¬ AudioSpec.decodes_every_payload.
Proof.
  split; [reflexivity|]. split; [reflexivity|]. split; [reflexivity|].
  intros Hall. destruct (Hall LittleEndian [Byte.x01]) as (out & Hout & _).
  discriminate Hout.
Qed.

(** C9, amended. A payload of 16-bit samples, that is, of an even number of bytes and
    of one sample at least, is decoded, in either byte order, into as many
    frames as it holds samples; every sample [s] lies between -32768 and
    32767, is mapped to [s / 32768], and the result lies in the closed
    interval from -1 to 1. *)
Theorem decoded_samples_are_normalised e (bytes : list Byte.byte) :
  Nat.even (length bytes) = true → bytes ≠ [] →
  ∃ samples out,
    Int16Array_of_buffer e bytes = Ok samples
    ∧ length samples = length bytes / 2
    ∧ Forall (fun s => (-32768 <= s <= 32767)%Z) samples
    ∧ decodeAudioData e bytes = Ok out
    ∧ out = (fun s => Finite (s # 32768)) <$> samples
    ∧ length out = length samples
    ∧ Forall in_unit_range out.
Proof.
  intros Heven Hne. exists (int16_elements e bytes). eexists.
  destruct (int16_elements_spec e bytes) as [[Hlen Hall] _].
  unfold decodeAudioData, Int16Array_of_buffer, createBuffer. rewrite Heven.
  split; [done|]. split; [done|]. split; [done|].
  change (length (int16_elements e bytes) / numChannels)
    with (length (int16_elements e bytes) / 1).
  rewrite Nat.div_1_r.
  assert (length (int16_elements e bytes) ≠ 0) as Hframes.
  { destruct bytes as [|b0 [|b1 rest]]; [done|discriminate Heven|].
    cbn [int16_elements length]. lia. }
  rewrite (proj2 (Nat.eqb_neq _ _) Hframes).
  split; [reflexivity|].
  unfold fill_channel, numChannels.
  rewrite (fill_loop
             (fun i => div_32768 (int16_elements e bytes !! (i * 1 + 0))))
    by (by rewrite length_replicate).
  rewrite drop_ge by (by rewrite length_replicate).
  rewrite app_nil_r.
  assert ((fun i => div_32768 (int16_elements e bytes !! (i * 1 + 0)))
          <$> seq 0 (length (int16_elements e bytes))
          = (fun s => Finite (s # 32768)) <$> int16_elements e bytes) as ->.
  { rewrite <- (fmap_lookup_seq div_32768). apply list_fmap_ext.
    intros i x _. by rewrite Nat.mul_1_r, Nat.add_0_r. }
  split; [done|]. split; [by rewrite length_fmap|].
  apply Forall_fmap. eapply Forall_impl; [exact Hall|].
  intros v Hv. apply (unit_range_of_int16 v Hv).
Qed.

Lemma decoded_samples_are_normalised_witness :
  let bytes := [Byte.x00; Byte.x80; Byte.xff; Byte.x7f; Byte.x00; Byte.x40] in
  Nat.even (length bytes) = true
  ∧ bytes ≠ []
  ∧ ∃ samples out,
      Int16Array_of_buffer LittleEndian bytes = Ok samples
      ∧ length samples = length bytes / 2
      ∧ Forall (fun s => (-32768 <= s <= 32767)%Z) samples
      ∧ decodeAudioData LittleEndian bytes = Ok out
      ∧ out = (fun s => Finite (s # 32768)) <$> samples
      ∧ length out = length samples
      ∧ Forall in_unit_range out.
Proof.
  intros bytes.
  assert (bytes ≠ []) as Hne by discriminate.
  split; [reflexivity|]. split; [exact Hne|].
  exact (decoded_samples_are_normalised LittleEndian bytes eq_refl Hne).
Defined.

(** The extreme samples: the lowest is mapped to -1, the highest stays below
    1. *)
Example decodeAudioData_extremes :
  decodeAudioData LittleEndian [Byte.x00; Byte.x80; Byte.xff; Byte.x7f]
  = Ok [Finite (-32768 # 32768); Finite (32767 # 32768)].
Proof. reflexivity. Qed.

End AudioProperties.

(** ** The story renderer *)

Module RendererProperties.
Import Renderer RenderSpec.

Lemma startsWith_spec p s : startsWith p s = true ↔ ∃ r, s = p ++ r.
Proof.
  revert s. induction p as [|a p IH]; intros s; cbn [startsWith].
  { split; [intros _; by exists s|done]. }
  destruct s as [|b s].
  { split; [done|]. intros [r Hr]. discriminate Hr. }
  rewrite andb_true_iff, N.eqb_eq, IH. split.
  - intros [-> [r ->]]. by exists r.
  - intros [r Hr]. injection Hr as -> ->. eauto.
Qed.

Lemma endsWith_spec p s : endsWith p s = true ↔ ∃ r, s = r ++ p.
Proof.
  unfold endsWith. rewrite startsWith_spec. split.
  - intros [r Hr]. exists (rev r).
    rewrite <- (rev_involutive s), Hr, rev_app_distr. by rewrite rev_involutive.
  - intros [r ->]. exists (rev r). by rewrite rev_app_distr.
Qed.

(** A part between braces is the marker of what lies between them. *)
Lemma wrapped_is_marker part :
  startsWith (open_braces) part && endsWith (close_braces) part = true →
  ∃ token, part = marker token.
Proof.
  rewrite andb_true_iff, startsWith_spec, endsWith_spec.
  intros [[r ->] [r' Hr']]. destruct r' as [|y1 [|y2 r']].
  - discriminate Hr'.
  - discriminate Hr'.
  - injection Hr' as _ _ ->. by exists r'.
Qed.

Lemma slice_marker token : slice_from_to_end 2 2 (marker token) = token.
Proof.
  unfold slice_from_to_end, marker, open_braces, close_braces.
  cbn [app drop length]. rewrite length_app. cbn [length].
  replace (S (S (length token + 2)) - 2 - 2) with (length token) by lia.
  by rewrite ?drop_0, take_app_length.
Qed.

Lemma render_part_marker token : render_part (marker token) = QuizBlank token.
Proof.
  unfold render_part.
  replace (startsWith (open_braces) (marker token)) with true
    by (symmetry; apply startsWith_spec; by eexists).
  replace (endsWith (close_braces) (marker token)) with true.
  - cbn [andb]. by rewrite slice_marker.
  - symmetry. apply endsWith_spec. exists (open_braces ++ token).
    unfold marker. by rewrite <- app_assoc.
Qed.

(** A part without a marker in it is rendered as it is. *)
Lemma render_part_plain part : ¬ holds_marker part → render_part part = Span part.
Proof.
  intros Hplain. unfold render_part.
  destruct (startsWith _ part && endsWith _ part) eqn:Hw; [|done].
  destruct (wrapped_is_marker part Hw) as [token ->]. exfalso. apply Hplain.
  exists [], token, []. by rewrite app_nil_r.
Qed.

(** Whatever the part, the node it is rendered as stands for it. *)
Lemma source_render_part part : source (render_part part) = part.
Proof.
  unfold render_part.
  destruct (startsWith _ part && endsWith _ part) eqn:Hw; [|done].
  destruct (wrapped_is_marker part Hw) as [token ->]. cbn [source].
  by rewrite slice_marker.
Qed.

Lemma lazy_until_close_Some s token rest :
  lazy_until_close s = Some (token, rest) →
  s = token ++ close_braces ++ rest ∧ ¬ closes token.
Proof.
  revert token rest. induction s as [|c s IH]; intros token rest; [done|].
  cbn [lazy_until_close].
  destruct (startsWith (close_braces) (c :: s)) eqn:Hc.
  { intros [= <- <-]. apply startsWith_spec in Hc as [r Hr].
    injection Hr as -> ->. split; [reflexivity|].
    intros (a & b & Hab). by destruct a. }
  destruct (is_line_terminator c); [done|].
  destruct (lazy_until_close s) as [[t r]|] eqn:Hs; [|done].
  cbn. intros [= <- <-]. destruct (IH _ _ eq_refl) as [-> Hopen].
  split; [done|]. intros (a & b & Hab). destruct a as [|x a].
  - cbn in Hab. injection Hab as -> ->.
    by rewrite (proj2 (startsWith_spec (close_braces) _)) in Hc by by eexists.
  - injection Hab as _ ->. apply Hopen. by exists a, b.
Qed.

Lemma single_line_cons c s :
  single_line (c :: s) ↔ is_line_terminator c = false ∧ single_line s.
Proof.
  unfold single_line. cbn [forallb]. rewrite andb_true_iff, negb_true_iff. done.
Qed.

Lemma single_line_app a b : single_line (a ++ b) ↔ single_line a ∧ single_line b.
Proof.
  induction a as [|c a IH]; cbn [app].
  - split; [by intros ?|by intros [_ ?]].
  - rewrite !single_line_cons, IH. tauto.
Qed.

(** The expression fails to close only at a line terminator: if closing
    braces lie ahead, a line terminator comes before the first of them. *)
Lemma lazy_until_close_None s token b :
  lazy_until_close s = None →
  s = token ++ close_braces ++ b → ¬ closes token → ¬ single_line token.
Proof.
  revert token. induction s as [|c s IH]; intros token Hnone Hs Hopen Hline.
  { by destruct token. }
  cbn [lazy_until_close] in Hnone.
  destruct (startsWith close_braces (c :: s)) eqn:Hc; [done|].
  destruct token as [|x token].
  { by rewrite (proj2 (startsWith_spec close_braces _)) in Hc by by eexists. }
  injection Hs as -> Hs. apply single_line_cons in Hline as [Hx Hline].
  rewrite Hx in Hnone.
  destruct (lazy_until_close s) as [[t r]|] eqn:Hl; [done|].
  apply (IH token eq_refl Hs); [|done].
  intros (a' & b' & ->). apply Hopen. by exists (x :: a'), b'.
Qed.

(** Before any closing braces there are first ones. *)
Lemma first_close token b :
  ∃ token' b',
    token ++ close_braces ++ b = token' ++ close_braces ++ b' ∧ ¬ closes token'.
Proof.
  induction token as [|x token (t' & b' & Heq & Hopen)].
  { exists [], b. split; [done|]. intros (a & b0 & Hab). by destruct a. }
  destruct (startsWith close_braces (x :: token ++ close_braces ++ b)) eqn:Hc.
  - apply startsWith_spec in Hc as [r Hr]. exists [], r. split; [done|].
    intros (a & b0 & Hab). by destruct a.
  - exists (x :: t'), b'. cbn [app]. rewrite Heq. split; [done|].
    intros (a & b0 & Hab). destruct a as [|y a].
    + rewrite Heq in Hc.
      change (x :: t' ++ close_braces ++ b')
        with ((x :: t') ++ close_braces ++ b') in Hc.
      rewrite Hab in Hc. cbn [app] in Hc. rewrite <- app_assoc in Hc.
      by rewrite (proj2 (startsWith_spec close_braces _)) in Hc by by eexists.
    + injection Hab as _ ->. apply Hopen. by exists a, b0.
Qed.

Lemma match_marker_Some s token rest :
  match_marker s = Some (token, rest) → s = marker token ++ rest ∧ ¬ closes token.
Proof.
  unfold match_marker. destruct (startsWith open_braces s) eqn:Hs; [|done].
  apply startsWith_spec in Hs as [r ->].
  change (drop 2 (open_braces ++ r)) with (drop 0 r). rewrite drop_0.
  intros [-> Hopen]%lazy_until_close_Some. split; [|done].
  unfold marker. by rewrite <- !app_assoc.
Qed.

Lemma match_marker_None s token b :
  tokens_on_one_line s → match_marker s = None → s ≠ marker token ++ b.
Proof.
  intros Hline Hnone ->. unfold match_marker in Hnone.
  unfold marker in Hnone. rewrite <- !app_assoc in Hnone.
  change (startsWith open_braces (open_braces ++ token ++ close_braces ++ b))
    with true in Hnone.
  change (drop 2 (open_braces ++ token ++ close_braces ++ b))
    with (drop 0 (token ++ close_braces ++ b)) in Hnone.
  rewrite drop_0 in Hnone.
  destruct (first_close token b) as (t' & b' & Heq & Hopen).
  apply (lazy_until_close_None _ t' b' Hnone Heq Hopen).
  apply (Hline [] t' b'); [|done].
  unfold marker. rewrite <- !app_assoc. cbn [app]. by rewrite Heq.
Qed.

Lemma tokens_on_one_line_suffix a s :
  tokens_on_one_line (a ++ s) → tokens_on_one_line s.
Proof.
  intros Hline a' token b ->. apply (Hline (a ++ a') token b).
  by rewrite <- app_assoc.
Qed.

Lemma single_line_tokens s : single_line s → tokens_on_one_line s.
Proof.
  intros Hline a token b -> _. unfold marker in Hline.
  apply single_line_app in Hline as [_ Hline].
  apply single_line_app in Hline as [Hline _].
  apply single_line_app in Hline as [_ Hline].
  by apply single_line_app in Hline as [Hline _].
Qed.

Lemma concat_split_loop lit s : concat (split_loop lit s) = lit ++ s.
Proof.
  apply (split_loop_elim (fun lit s parts => concat parts = lit ++ s)).
  - intros l. cbn. by rewrite !app_nil_r.
  - intros l c s' token rest Hm IH _. cbn [concat]. rewrite IH.
    apply match_marker_Some in Hm as [-> _]. done.
  - intros l c s' _ IH _. rewrite IH, <- app_assoc. done.
Qed.

Lemma marker_length token : length (marker token) = length token + 4.
Proof. unfold marker. rewrite !length_app. cbn. lia. Qed.

(** The loop of the split, on a text whose tokens do not span lines: as long
    as no marker of the text starts in the literal read so far, the parts are
    rendered alternately as spans without a marker and as blanks. *)
Lemma split_loop_faithful lit s :
  tokens_on_one_line (lit ++ s) →
  (∀ a token b, lit ++ s = a ++ marker token ++ b → length lit ≤ length a) →
  alternation (render_part <$> split_loop lit s)
  ∧ Forall well_cut (render_part <$> split_loop lit s).
Proof.
  apply (split_loop_elim (fun lit s parts =>
    tokens_on_one_line (lit ++ s) →
    (∀ a token b, lit ++ s = a ++ marker token ++ b → length lit ≤ length a) →
    alternation (render_part <$> parts) ∧ Forall well_cut (render_part <$> parts))).
  - intros l _ Hinv.
    assert (¬ holds_marker l) as Hplain.
    { intros (a & token & b & Hab). specialize (Hinv a token b).
      rewrite app_nil_r in Hinv. specialize (Hinv Hab).
      apply (f_equal length) in Hab.
      rewrite !length_app, marker_length in Hab. lia. }
    cbn. rewrite (render_part_plain l Hplain).
    split; [constructor|]. by repeat constructor.
  - intros l c s' token rest Hm IH _ Hline Hinv.
    apply match_marker_Some in Hm as [Hs Hopen].
    assert (¬ holds_marker l) as Hplain.
    { intros (a & t & b & Hab).
      assert (l ++ c :: s' = a ++ marker t ++ b ++ c :: s') as Heq
        by (by rewrite Hab, <- !app_assoc).
      apply Hinv in Heq. apply (f_equal length) in Hab.
      rewrite !length_app, marker_length in Hab. lia. }
    rewrite !fmap_cons, (render_part_plain l Hplain), render_part_marker.
    destruct IH as [Halt Hall].
    + rewrite Hs in Hline. apply tokens_on_one_line_suffix in Hline.
      by apply tokens_on_one_line_suffix in Hline.
    + intros. cbn. lia.
    + split; [by constructor|]. by repeat constructor.
  - intros l c s' Hm IH _ Hline Hinv.
    apply IH; [by rewrite <- app_assoc|]. intros a token b Hab.
    rewrite <- app_assoc in Hab. cbn [app] in Hab.
    pose proof (Hinv a token b Hab) as Hle.
    rewrite length_app. cbn [length].
    destruct (decide (length a = length l)) as [Heq|]; [|lia].
    exfalso. apply app_inj_1 in Hab as [_ Hab]; [|done].
    apply tokens_on_one_line_suffix in Hline.
    by apply (match_marker_None (c :: s') token b Hline Hm).
Qed.

Lemma renderStoryContent_source content :
  concat (source <$> renderStoryContent content) = content.
Proof.
  unfold renderStoryContent, split. rewrite <- list_fmap_compose.
  rewrite <- (concat_split_loop [] content) at 2. f_equal.
  rewrite <- (list_fmap_id (split_loop [] content)) at 2.
  apply list_fmap_ext. intros i part _. apply source_render_part.
Qed.

(** C8, as stated, fails when a token spans lines: inside a body the marker
    is not found and stays in a span, braces and all; standing alone it is not
    found by the split either, which returns the body as its one part, and is
    rendered as a blank all the same. *)
Lemma marker_across_lines_stays_in_span :
  renderStoryContent body_across_lines = [Span body_across_lines]
  ∧ holds_marker body_across_lines
  ∧ ¬ faithful_rendering body_across_lines (renderStoryContent body_across_lines)
  ∧ split token_across_lines = [token_across_lines]
  ∧ renderStoryContent token_across_lines
    = [QuizBlank (str "a" ++ line_feed ++ str "b")].
Proof.
  assert (holds_marker body_across_lines) as Hm.
  { exists (str "x"), (str "a" ++ line_feed ++ str "b"), []. reflexivity. }
  split; [by vm_compute|]. split; [done|]. split; [|split; by vm_compute].
  intros (_ & _ & Hcut).
  replace (renderStoryContent body_across_lines) with [Span body_across_lines]
    in Hcut by (by vm_compute).
  apply Forall_cons in Hcut as [Hcut _]. by apply Hcut.
Qed.

(** C8, amended. Put back together, with every blank standing for its token
    between braces, the rendering of any body is the body.  When no line
    terminator lies between two opening braces and the first closing braces
    after them, the rendering is a span, then a blank and a span for every
    marker: every blank carries the token of a marker, which ends at the
    first closing braces, and no span has a marker left in it.  The body of
    the example yields the two blanks and the three literal segments. *)
Theorem story_rendering_is_faithful :
  (∀ content, concat (source <$> renderStoryContent content) = content)
  ∧ (∀ content, tokens_on_one_line content →
       faithful_rendering content (renderStoryContent content))
  ∧ renderStoryContent cat_on_mat
    = [Span (str "The "); QuizBlank (str "cat"); Span (str " sat on the ");
       QuizBlank (str "mat"); Span (str ".")].
Proof.
  split; [apply renderStoryContent_source|]. split; [|by vm_compute].
  intros content Hline. split; [apply renderStoryContent_source|].
  apply split_loop_faithful; [done|]. intros. cbn. lia.
Qed.

Lemma story_rendering_is_faithful_witness :
  tokens_on_one_line cat_on_mat
  ∧ faithful_rendering cat_on_mat (renderStoryContent cat_on_mat).
Proof.
  assert (tokens_on_one_line cat_on_mat) as Hline
    by (apply single_line_tokens; reflexivity).
  split; [exact Hline|].
  exact (proj1 (proj2 story_rendering_is_faithful) cat_on_mat Hline).
Defined.

End RendererProperties.

(** * Further properties of the code *)

(** ** The collection store, continued *)

Module CollectionMore.
Import App Spec Derived.

Lemma remove_filter (s0 : AppState) id :
  savedItems (after (handleRemoveSavedItem id) s0)
  = List.filter (fun item => negb (bool_decide (si_id item = id))) (savedItems s0).
Proof. reflexivity. Qed.

Lemma filter_absent id (items : list SavedItem) :
  (∀ item, item ∈ items → si_id item ≠ id) →
  List.filter (fun item => negb (bool_decide (si_id item = id))) items = items.
Proof.
  induction items as [|x items IH]; intros Habsent; [done|].
  cbn [List.filter]. rewrite bool_decide_eq_false_2
    by (apply Habsent, list_elem_of_here).
  cbn [negb]. f_equal. apply IH. intros item Hin.
  apply Habsent. by apply list_elem_of_further.
Qed.

(** X1. Removing an identifier that no saved item carries leaves the
    collection as it was. *)
Theorem remove_absent_id_changes_nothing (s0 : AppState) (id : jsstring) :
  (∀ item, item ∈ savedItems s0 → si_id item ≠ id) →
  savedItems (after (handleRemoveSavedItem id) s0) = savedItems s0.
Proof. intros Habsent. rewrite remove_filter. by apply filter_absent. Qed.

Lemma remove_absent_id_changes_nothing_witness :
  let s0 := StorySamples.wordbook_of StorySamples.three_words in
  (∀ item, item ∈ savedItems s0 → si_id item ≠ str "7")
  ∧ savedItems (after (handleRemoveSavedItem (str "7")) s0) = savedItems s0.
Proof.
  intros s0.
  assert (∀ item, item ∈ savedItems s0 → si_id item ≠ str "7") as Habsent.
  { intros item Hin. vm_compute in Hin.
    repeat (apply elem_of_cons in Hin as [->|Hin]; [vm_compute; discriminate|]).
    by apply elem_of_nil in Hin. }
  split; [exact Habsent|].
  exact (remove_absent_id_changes_nothing s0 (str "7") Habsent).
Defined.

(** X2. Removal goes by identifier alone and spares nothing that carries it:
    afterwards no item has the identifier, and the items that remain are
    those of the other identifiers, in the order they had. *)
Theorem remove_takes_every_item_of_the_id (s0 : AppState) (id : jsstring) :
  let kept := savedItems (after (handleRemoveSavedItem id) s0) in
  (∀ item, item ∈ kept ↔ item ∈ savedItems s0 ∧ si_id item ≠ id)
  ∧ kept `sublist_of` savedItems s0
  ∧ length kept ≤ length (savedItems s0).
Proof.
  intros kept. subst kept. rewrite remove_filter.
  split; [|split].
  - intros item. rewrite !list_elem_of_In, filter_In, negb_true_iff.
    by rewrite bool_decide_eq_false.
  - induction (savedItems s0) as [|x l IH]; [done|].
    cbn [List.filter]. destruct (negb _); by constructor.
  - induction (savedItems s0) as [|x l IH]; [done|].
    cbn [List.filter]. destruct (negb _); cbn [length]; lia.
Qed.

(** X3. An item that was saved and is then removed by its identifier leaves
    the collection as it was before the save, provided that no older item
    carries the same identifier, the reading of the clock the item was saved
    at. *)
Theorem save_then_remove_restores
    (s s0 : AppState) (now_id now_ts : Z) wd img :
  wordData s = Some wd → currentImage s = Some img → img ≠ [] →
  (∀ item, item ∈ savedItems s0 →
     ¬ (si_word item = wd_word wd ∧ si_imageUrl item = img)) →
  (∀ item, item ∈ savedItems s0 → si_id item ≠ Number_toString now_id) →
  savedItems (after (handleRemoveSavedItem (Number_toString now_id))
                (after (handleSaveItem s now_id now_ts) s0))
  = savedItems s0.
Proof.
  intros Hwd Himg Hne Hpair Hid. rewrite remove_filter.
  rewrite (CollectionProperties.handleSaveItem_effect s s0 now_id now_ts wd img
             Hwd Himg Hne).
  rewrite CollectionProperties.save_updater_fresh.
  - cbn [List.filter si_id]. rewrite bool_decide_eq_true_2 by done.
    cbn [negb]. by apply filter_absent.
  - intros (item & Heq & Hin)%list_elem_of_fmap.
    apply (Hpair item Hin). by injection Heq as -> ->.
Qed.

Lemma save_then_remove_restores_witness :
  let s := Samples.showing [Samples.img "a"; Samples.img "b"] 1 [] in
  wordData s = Some Samples.gato
  ∧ currentImage s = Some (Samples.img "b")
  ∧ Samples.img "b" ≠ []
  ∧ savedItems (after (handleRemoveSavedItem (Number_toString 1700000000000))
                  (after (handleSaveItem s 1700000000000 1700000000000) s))
    = savedItems s.
Proof.
  intros s.
  assert (wordData s = Some Samples.gato) as Hwd by reflexivity.
  assert (currentImage s = Some (Samples.img "b")) as Himg by reflexivity.
  assert (Samples.img "b" ≠ []) as Hne by (vm_compute; discriminate).
  split; [exact Hwd|]. split; [exact Himg|]. split; [exact Hne|].
  apply (save_then_remove_restores s s 1700000000000 1700000000000
           Samples.gato (Samples.img "b") Hwd Himg Hne).
  - intros item Hin. vm_compute in Hin. inversion Hin.
  - intros item Hin. vm_compute in Hin. inversion Hin.
Defined.

Lemma isCurrentSaved_spec (s : AppState) wd img :
  wordData s = Some wd → currentImage s = Some img →
  isCurrentSaved s = true
  ↔ ∃ item, item ∈ savedItems s ∧ si_word item = wd_word wd
            ∧ si_imageUrl item = img.
Proof.
  intros Hwd Himg. unfold isCurrentSaved. rewrite Hwd, Himg. cbn [fmap option_fmap option_map].
  rewrite existsb_exists. split.
  - intros (item & Hin%list_elem_of_In & Hb).
    apply andb_prop in Hb as [Hi%bool_decide_eq_true Hw%bool_decide_eq_true].
    exists item. split; [done|]. split; congruence.
  - intros (item & Hin & Hw & Hi). exists item.
    split; [by apply list_elem_of_In|].
    by rewrite !bool_decide_eq_true_2 by congruence.
Qed.

(** X4. The badge and the store agree.  With a word and an image on display,
    the item counts as saved exactly when saving it would leave the
    collection as it is; and once it has been saved it counts as saved, so
    that the button is disabled. *)
Theorem saved_badge_agrees_with_save (s : AppState) (now_id now_ts : Z) wd img :
  wordData s = Some wd → currentImage s = Some img → img ≠ [] →
  (isCurrentSaved s = true
   ↔ savedItems (after (handleSaveItem s now_id now_ts) s) = savedItems s)
  ∧ isCurrentSaved (after (handleSaveItem s now_id now_ts) s) = true.
Proof.
  intros Hwd Himg Hne.
  pose proof (CollectionProperties.handleSaveItem_effect s s now_id now_ts wd img
                Hwd Himg Hne) as Heff.
  set (newItem := {| si_id := Number_toString now_id; si_word := wd_word wd;
                     si_imageUrl := img; si_definition := wd_definition wd;
                     si_timestamp := now_ts |}) in Heff.
  assert (wordData (after (handleSaveItem s now_id now_ts) s) = Some wd
          ∧ currentImage (after (handleSaveItem s now_id now_ts) s) = Some img)
    as [Hwd' Himg'].
  { unfold after, handleSaveItem. rewrite Hwd, Himg. destruct img; [done|].
    by split. }
  split.
  - rewrite (isCurrentSaved_spec s wd img Hwd Himg), Heff. split.
    + intros (item & Hin & Hw & Hi).
      apply CollectionProperties.save_updater_found.
      exists item. split; [done|]. unfold pair_of. cbn. by rewrite Hw, Hi.
    + intros Hsame.
      destruct (CollectionProperties.save_updater_cases newItem (savedItems s))
        as [[Hin _]|[_ Hcons]].
      * apply list_elem_of_fmap in Hin as (item & Heq & Hin).
        exists item. split; [done|]. by injection Heq as <- <-.
      * rewrite Hcons in Hsame. apply (f_equal length) in Hsame.
        cbn in Hsame. lia.
  - apply (isCurrentSaved_spec _ wd img Hwd' Himg'). rewrite Heff.
    destruct (CollectionProperties.save_updater_cases newItem (savedItems s))
      as [[Hin ->]|[_ ->]].
    + apply list_elem_of_fmap in Hin as (item & Heq & Hin).
      exists item. split; [done|]. by injection Heq as <- <-.
    + exists newItem. split; [apply list_elem_of_here|done].
Qed.

Lemma saved_badge_agrees_with_save_witness :
  let s := Samples.showing [Samples.img "a"; Samples.img "b"] 1 [] in
  wordData s = Some Samples.gato
  ∧ currentImage s = Some (Samples.img "b")
  ∧ Samples.img "b" ≠ []
  ∧ isCurrentSaved (after (handleSaveItem s 1 2) s) = true.
Proof.
  intros s.
  assert (wordData s = Some Samples.gato) as Hwd by reflexivity.
  assert (currentImage s = Some (Samples.img "b")) as Himg by reflexivity.
  assert (Samples.img "b" ≠ []) as Hne by (vm_compute; discriminate).
  split; [exact Hwd|]. split; [exact Himg|]. split; [exact Hne|].
  exact (proj2 (saved_badge_agrees_with_save s 1 2 Samples.gato
                  (Samples.img "b") Hwd Himg Hne)).
Defined.

End CollectionMore.

(** ** Blank input *)

Module BlankInput.
Import Gateway App Spec MoreSpec.

Lemma blank_cons c s : blank (c :: s) ↔ is_white_space c = true ∧ blank s.
Proof. unfold blank. cbn [forallb]. by rewrite andb_true_iff. Qed.

Lemma blank_app a b : blank (a ++ b) ↔ blank a ∧ blank b.
Proof.
  induction a as [|c a IH]; cbn [app].
  - split; [by intros ?|by intros [_ ?]].
  - rewrite !blank_cons, IH. tauto.
Qed.

Lemma blank_rev s : blank (rev s) ↔ blank s.
Proof.
  induction s as [|c s IH]; [done|].
  cbn [rev]. rewrite blank_app, !blank_cons, IH.
  split; [intros (? & ? & _)|intros [? ?]]; by repeat split.
Qed.

Lemma trimStart_blank s : trimStart s = [] ↔ blank s.
Proof.
  induction s as [|c s IH]; [done|].
  cbn [trimStart]. rewrite blank_cons. destruct (is_white_space c).
  - rewrite IH. tauto.
  - split; [done|]. by intros [? _].
Qed.

Lemma trimStart_head s c r : trimStart s = c :: r → is_white_space c = false.
Proof.
  induction s as [|x s IH]; [done|].
  cbn [trimStart]. destruct (is_white_space x) eqn:Hx; [done|].
  by intros [= <- _].
Qed.

(** [trim] leaves nothing exactly of the strings of white space. *)
Lemma trim_blank s : trim s = [] ↔ blank s.
Proof.
  unfold trim, trimEnd. split.
  - intros Hnil. apply (f_equal (@rev N)) in Hnil.
    rewrite rev_involutive in Hnil. cbn [rev] in Hnil.
    apply (proj1 (trimStart_blank _)) in Hnil.
    apply (proj1 (blank_rev _)) in Hnil.
    destruct (trimStart s) as [|c r] eqn:Hs; [by apply trimStart_blank|].
    apply trimStart_head in Hs. apply blank_cons in Hnil as [Hc _]. congruence.
  - intros Hs%trimStart_blank. by rewrite Hs.
Qed.

(** X5. A search is ignored exactly when the query is blank: no setter is
    called and no request is issued if every character of the query is white
    space, and only then.  A chat message of white space only, or one sent
    while no word is loaded, is ignored in the same way. *)
Theorem blank_input_is_ignored parse (s : AppState) :
  (∀ definition imageBytes,
     trace (handleSearch parse s definition imageBytes) = [] ↔ blank (query s))
  ∧ (∀ now_user now_bot response,
       blank (chatInput s) ∨ wordData s = None →
       trace (handleChatSubmit s now_user now_bot response) = []).
Proof.
  split.
  - intros definition imageBytes. rewrite <- trim_blank. split.
    + intros Hquiet. destruct (trim (query s)) as [|c q] eqn:Hq; [done|].
      assert (trim (query s) ≠ []) as Hne by (by rewrite Hq).
      destruct (SearchProperties.handleSearch_trace parse s definition
                  imageBytes Hne) as (log & Htrace & _).
      rewrite Htrace in Hquiet. discriminate Hquiet.
    + intros Hq.
      by rewrite (SearchProperties.handleSearch_blank parse s definition
                    imageBytes Hq).
  - intros now_user now_bot response [Hb%trim_blank|Hw]; unfold handleChatSubmit.
    + by rewrite Hb.
    + rewrite Hw. by destruct (truthy _).
Qed.

Lemma blank_input_is_ignored_witness :
  let s := Samples.showing [] 0 (str "   ") in
  (blank (chatInput s) ∨ wordData s = None)
  ∧ trace (handleChatSubmit s 1 2 (Ok None)) = [].
Proof.
  intros s.
  assert (blank (chatInput s) ∨ wordData s = None) as Hb by (left; reflexivity).
  split; [exact Hb|].
  exact (proj2 (blank_input_is_ignored Samples.parse_gato s) 1%Z 2%Z (Ok None) Hb).
Defined.

End BlankInput.

(** ** The story handler *)

Module StoryHandler.
Import Gateway Story Spec MoreSpec.

Lemma Array_from_Set_spec xs :
  NoDup (Array_from_Set xs) ∧ ∀ x, x ∈ Array_from_Set xs ↔ x ∈ xs.
Proof.
  destruct (StoryProperties.fold_Set_add_spec xs [] (NoDup_nil_2))
    as [Hnd Hel].
  split; [done|]. intros x. unfold Array_from_Set. rewrite Hel, elem_of_nil.
  tauto.
Qed.

(** The subset of a duplicate-free array. *)
Lemma subset_of_distinct `{engine : SortEngine} (l : list jsstring) cmp :
  NoDup l →
  let subset := if 8 <? length l then take 8 (array_sort cmp l) else l in
  NoDup subset ∧ (∀ w, w ∈ subset → w ∈ l) ∧ length subset = length l `min` 8.
Proof.
  intros Hnd subset. subst subset. destruct (8 <? length l) eqn:Hlen.
  - apply Nat.ltb_lt in Hlen.
    destruct (StoryProperties.subset_of_many l cmp Hlen) as (H8 & Hsub & Hdis).
    split; [by apply Hdis|]. split; [|lia].
    intros w Hw. by apply (elem_of_submseteq _ _ _ Hw Hsub).
  - apply Nat.ltb_ge in Hlen. split; [done|]. split; [done|lia].
Qed.

(** The handler, once the collection is known not to be empty. *)
Lemma handleGenerateStory_unfold `{engine : SortEngine} parse
    (s : AppState) (h : heap) cmp response :
  savedItems s ≠ [] →
  let words := Array_from_Set (si_word <$> savedItems s) in
  let subset := if 8 <? length words then take 8 (array_sort cmp words)
                else words in
  ∃ h' outcome,
    handleGenerateStory parse s h cmp response
    = (h',
       set (setLoadingStory true);;
       set (setStoryQuiz None);;
       try_finally
         (try_catch
            (promise ← call (Async [Issue (StoryRequest (join (str ", ") subset)
                                             (targetLanguage s))] outcome);
             quiz ← await promise;
             set (setStoryQuiz (Some quiz)))
            (fun err => console_error "Story generation failed"))
         (set (setLoadingStory false)))
    ∧ outcome = match response with
                | Ok (Some (c :: t)) =>
                    match parse (c :: t) with
                    | Ok q => mret q
                    | Throw e => throw e
                    end
                | Ok (Some []) | Ok None => throw (Error "Failed to generate story")
                | Throw e => throw e
                end
    ∧ ∀ loc, is_Some (h !! loc) → h' !! loc = h !! loc.
Proof.
  intros Hne words subset. unfold handleGenerateStory.
  destruct (savedItems s) as [|item items] eqn:Hitems; [done|].
  cbn [length Nat.eqb]. fold words. unfold generateStoryFromWords.
  erewrite StoryProperties.select_subset_spec by apply lookup_insert_eq.
  assert (∀ loc, is_Some (h !! loc) → loc ≠ fresh (dom h)) as Hfresh.
  { intros loc Hin%elem_of_dom ->. by apply (is_fresh (dom h)). }
  destruct (8 <? length words) eqn:Hlen; cbn [mbind option_bind];
    fold subset; eexists _, _; (split; [reflexivity|]);
    (split; [by destruct response as [[[|c t]|]|e]|]);
    intros loc Hloc.
  - rewrite insert_insert_eq. by rewrite lookup_insert_ne by (symmetry; auto).
  - by rewrite lookup_insert_ne by (symmetry; auto).
Qed.

(** X6. Whatever the wordbook holds, as long as it holds something, the story
    handler issues exactly one request, and the words it names are saved
    words, no word twice even if it was saved with several images, eight of
    them at most, and all the distinct words when there are eight or
    fewer. *)
Theorem story_request_names_distinct_saved_words `{engine : SortEngine}
    parse (s : AppState) (h : heap) cmp response :
  savedItems s ≠ [] →
  ∃ subset,
    requests (trace (handleGenerateStory parse s h cmp response).2)
    = [StoryRequest (join (str ", ") subset) (targetLanguage s)]
    ∧ NoDup subset
    ∧ (∀ w, w ∈ subset → ∃ item, item ∈ savedItems s ∧ si_word item = w)
    ∧ length subset = length (Array_from_Set (si_word <$> savedItems s)) `min` 8
    ∧ (length (Array_from_Set (si_word <$> savedItems s)) ≤ 8 →
       subset = Array_from_Set (si_word <$> savedItems s)).
Proof.
  intros Hne.
  destruct (handleGenerateStory_unfold parse s h cmp response Hne)
    as (h' & outcome & -> & -> & _).
  destruct (Array_from_Set_spec (si_word <$> savedItems s)) as [Hnd Hel].
  destruct (subset_of_distinct _ cmp Hnd) as (Hnd' & Hin & Hlen).
  eexists. split; [|split; [exact Hnd'|split; [|split; [exact Hlen|]]]].
  - destruct response as [[[|c t]|]|e]; run_handler;
      try destruct (parse (c :: t)); reflexivity.
  - intros w Hw%Hin%Hel. apply list_elem_of_fmap in Hw as (item & -> & Hitem).
    by exists item.
  - intros Hfew. by rewrite (proj2 (Nat.ltb_ge _ _) Hfew).
Qed.

Lemma story_request_names_distinct_saved_words_witness :
  let s := StorySamples.wordbook_of
             (StorySamples.three_words ++ StorySamples.three_words) in
  savedItems s ≠ []
  ∧ ∃ subset,
      requests (trace (handleGenerateStory (engine := StoryProperties.insertion_engine)
                         StorySamples.parse_nothing s ∅
                         StorySamples.always_positive (Ok None)).2)
      = [StoryRequest (join (str ", ") subset) SPANISH]
      ∧ NoDup subset.
Proof.
  intros s. assert (savedItems s ≠ []) as Hne by discriminate.
  split; [exact Hne|].
  destruct (story_request_names_distinct_saved_words
              (engine := StoryProperties.insertion_engine)
              StorySamples.parse_nothing s ∅ StorySamples.always_positive
              (Ok None) Hne) as (subset & Hreq & Hnd & _).
  exists subset. split; [exact Hreq|exact Hnd].
Defined.

(** X7. The handler sorts an array of its own.  Whatever the wordbook holds,
    every array the store held before is as it was afterwards, and the saved
    collection is not changed by anything the handler does. *)
Theorem story_handler_spares_store_and_collection `{engine : SortEngine}
    parse (s s0 : AppState) (h : heap) cmp response :
  let result := handleGenerateStory parse s h cmp response in
  (∀ loc, is_Some (h !! loc) → result.1 !! loc = h !! loc)
  ∧ savedItems (after result.2 s0) = savedItems s0.
Proof.
  intros result. subst result.
  destruct (decide (savedItems s = [])) as [Hnil|Hne].
  { unfold handleGenerateStory. rewrite Hnil. by split. }
  destruct (handleGenerateStory_unfold parse s h cmp response Hne)
    as (h' & outcome & -> & -> & Hframe).
  split; [exact Hframe|]. unfold after.
  destruct response as [[[|c t]|]|e]; run_handler;
    try destruct (parse (c :: t)); reflexivity.
Qed.

(** X8. A new generation first takes the story on display away and raises
    the loading flag, and only then issues its request.  When the service
    answers with a text that parses, that quiz is on display afterwards; in
    every other case no story is, whatever was shown before.  The loading
    flag is down at the end either way.  On an empty wordbook the handler does
    nothing at all. *)
Theorem story_lifecycle `{engine : SortEngine}
    parse (s s0 : AppState) (h : heap) cmp response :
  let result := handleGenerateStory parse s h cmp response in
  (savedItems s = [] → result = (h, mret tt))
  ∧ (savedItems s ≠ [] →
     (∃ r post,
        trace result.2
        = SetState (setLoadingStory true) :: SetState (setStoryQuiz None)
          :: Issue r :: post
        ∧ requests post = [])
     ∧ storyQuiz (after result.2 s0) = quiz_of parse response
     ∧ loadingStory (after result.2 s0) = false).
Proof.
  intros result. subst result. split.
  { intros Hnil. unfold handleGenerateStory. by rewrite Hnil. }
  intros Hne.
  destruct (handleGenerateStory_unfold parse s h cmp response Hne)
    as (h' & outcome & -> & -> & _).
  unfold after, quiz_of.
  destruct response as [[[|c t]|]|e]; run_handler;
    try destruct (parse (c :: t)); (split; [by eexists _, _|by split]).
Qed.

Lemma story_lifecycle_witness :
  let s := StorySamples.wordbook_of StorySamples.three_words in
  savedItems s ≠ []
  ∧ storyQuiz (after (handleGenerateStory (engine := StoryProperties.insertion_engine)
                        StorySamples.parse_nothing s ∅
                        StorySamples.always_positive (Ok (Some (str "{}")))).2 s)
    = None.
Proof.
  intros s. assert (savedItems s ≠ []) as Hne by discriminate.
  split; [exact Hne|].
  exact (proj1 (proj2 (proj2 (story_lifecycle
                                (engine := StoryProperties.insertion_engine)
                                StorySamples.parse_nothing s s ∅
                                StorySamples.always_positive
                                (Ok (Some (str "{}")))) Hne))).
Defined.

End StoryHandler.

(** ** The audio path, from the payload to the playback *)

Module AudioMore.
Import Audio Wide MoreSpec.

Lemma ToUint8_to_N c : Byte.to_N (ToUint8 c) = (c mod 256)%N.
Proof.
  unfold ToUint8. destruct (Byte.of_N (c mod 256)) as [b|] eqn:Hb.
  - by apply Byte.to_of_N.
  - apply Byte.of_N_None_iff in Hb.
    pose proof (N.mod_lt c 256 ltac:(done)). lia.
Qed.

Lemma decodeAudio_keeps_binary_strings_length (binaryString : jsstring) :
  length (decodeAudio binaryString) = length binaryString.
Proof. by rewrite AudioProperties.decodeAudio_bytes, length_fmap. Qed.

(** X9. [decodeAudio] makes one byte of every character of the string it is
    given, the low eight bits of its code; on a binary string, such as [atob]
    returns, nothing is lost: the bytes read back as the codes of the
    characters. *)
Theorem decodeAudio_keeps_binary_strings (binaryString : jsstring) :
  length (decodeAudio binaryString) = length binaryString
  ∧ Byte.to_N <$> decodeAudio binaryString
    = (fun c => (c mod 256)%N) <$> binaryString
  ∧ (binary binaryString → Byte.to_N <$> decodeAudio binaryString = binaryString).
Proof.
  rewrite AudioProperties.decodeAudio_bytes, length_fmap, <- list_fmap_compose.
  assert (Byte.to_N ∘ ToUint8 <$> binaryString
          = (fun c => (c mod 256)%N) <$> binaryString) as Hlow.
  { apply list_fmap_ext. intros i c _. apply ToUint8_to_N. }
  split; [done|]. split; [done|].
  intros Hbin. rewrite Hlow. rewrite <- (list_fmap_id binaryString) at 2.
  apply list_fmap_ext. intros i c Hc.
  apply (Forall_lookup_1 _ _ _ _ Hbin) in Hc. cbn in Hc.
  by apply N.mod_small.
Qed.

Lemma decodeAudio_keeps_binary_strings_witness :
  binary [0; 128; 255; 127]%N
  ∧ Byte.to_N <$> decodeAudio [0; 128; 255; 127]%N = [0; 128; 255; 127]%N.
Proof.
  assert (binary [0; 128; 255; 127]%N) as Hbin
    by (repeat constructor).
  split; [exact Hbin|].
  exact (proj2 (proj2 (decodeAudio_keeps_binary_strings [0; 128; 255; 127]%N))
           Hbin).
Defined.

(** Two bytes side by side: the disjunction of the low byte and the shifted
    high byte is their sum. *)
Lemma lor_shift_add (a b : Z) :
  (0 <= a < 256)%Z → (0 <= b)%Z →
  Z.lor a (Z.shiftl b 8) = (a + 256 * b)%Z.
Proof.
  intros Ha Hb.
  assert (Z.land a (Z.shiftl b 8) = 0%Z) as Hdisjoint.
  { apply Z.bits_inj'. intros n Hn. rewrite Z.land_spec, Z.bits_0.
    destruct (Z.lt_ge_cases n 8) as [Hlow|Hhigh].
    - rewrite Z.shiftl_spec_low by done. apply andb_false_r.
    - rewrite <- (Z.mod_small a (2 ^ 8)) by (change (2 ^ 8)%Z with 256%Z; lia).
      rewrite Z.mod_pow2_bits_high by lia. done. }
  rewrite <- Z.lxor_lor by done. rewrite <- Z.add_nocarry_lxor by done.
  rewrite Z.shiftl_mul_pow2 by lia. change (2 ^ 8)%Z with 256%Z. lia.
Qed.

Lemma byte_val_inj b b' : byte_val b = byte_val b' → b = b'.
Proof.
  unfold byte_val. intros H%(inj Z.of_N).
  pose proof (Byte.of_to_N b) as Hb. rewrite H, Byte.of_to_N in Hb.
  by injection Hb.
Qed.

Lemma int16_inj e b0 b1 b0' b1' :
  int16 e b0 b1 = int16 e b0' b1' → b0 = b0' ∧ b1 = b1'.
Proof.
  pose proof (AudioProperties.byte_val_range b0).
  pose proof (AudioProperties.byte_val_range b1).
  pose proof (AudioProperties.byte_val_range b0').
  pose proof (AudioProperties.byte_val_range b1').
  unfold int16. destruct e; rewrite !lor_shift_add by lia;
    repeat match goal with
           | |- context [(?x <? 32768)%Z] => destruct (Z.ltb_spec x 32768)
           end;
    intros Heq;
    (assert (byte_val b0 = byte_val b0' ∧ byte_val b1 = byte_val b1')
       as [?%byte_val_inj ?%byte_val_inj] by lia); done.
Qed.

Lemma int16_elements_inj e bytes bytes' :
  Nat.even (length bytes) = true → Nat.even (length bytes') = true →
  int16_elements e bytes = int16_elements e bytes' → bytes = bytes'.
Proof.
  revert bytes'. induction bytes as [bytes IH] using (induction_ltof1 _ length).
  unfold ltof in IH. intros bytes' Heven Heven' Heq.
  destruct bytes as [|b0 [|b1 rest]]; destruct bytes' as [|b0' [|b1' rest']];
    try done.
  cbn [int16_elements] in Heq. injection Heq as Hhead Htail.
  apply int16_inj in Hhead as [-> ->]. f_equal. f_equal.
  apply IH; [cbn; lia|done|done|done].
Qed.

(** What the decoder returns, payload by payload. *)
Lemma decodeAudioData_value e (bytes : list Byte.byte) :
  decodeAudioData e bytes
  = if Nat.even (length bytes) then
      match bytes with
      | [] => Throw NotSupportedError
      | _ :: _ => Ok ((fun s => Finite (s # 32768)) <$> int16_elements e bytes)
      end
    else Throw RangeError.
Proof.
  unfold decodeAudioData, Int16Array_of_buffer, createBuffer.
  destruct (Nat.even (length bytes)) eqn:Heven; [|done].
  destruct bytes as [|b0 [|b1 rest]]; [done|done|].
  change (length (int16_elements e (b0 :: b1 :: rest)) / numChannels)
    with (length (int16_elements e (b0 :: b1 :: rest)) / 1).
  rewrite Nat.div_1_r. cbn [int16_elements length Nat.eqb].
  unfold fill_channel, numChannels. f_equal.
  rewrite (AudioProperties.fill_loop
             (fun i => div_32768
                         ((int16 e b0 b1 :: int16_elements e rest) !! (i * 1 + 0)))
             (S (length (int16_elements e rest))))
    by (by rewrite length_replicate).
  rewrite drop_ge by (by rewrite length_replicate).
  rewrite app_nil_r.
  etrans; [|exact (AudioProperties.fmap_lookup_seq div_32768
                     (int16 e b0 b1 :: int16_elements e rest))].
  apply list_fmap_ext. intros i x _. by rewrite Nat.mul_1_r, Nat.add_0_r.
Qed.

(** X10. Decoding loses nothing: in either byte order, two payloads that are
    decoded into the same samples are the same payload. *)
Theorem decoding_is_lossless e (bytes bytes' : list Byte.byte) out :
  decodeAudioData e bytes = Ok out → decodeAudioData e bytes' = Ok out →
  bytes = bytes'.
Proof.
  rewrite !decodeAudioData_value.
  destruct (Nat.even (length bytes)) eqn:Heven; [|done].
  destruct (Nat.even (length bytes')) eqn:Heven'; [|done].
  destruct bytes as [|b0 rest]; [done|]. destruct bytes' as [|b0' rest']; [done|].
  intros [= <-] [= Heq].
  assert (Inj (=) (=) (fun s : Z => Finite (s # 32768))) as Hinj
    by (by intros x y [= ->]).
  apply (list_fmap_eq_inj _ Hinj) in Heq.
  symmetry. by apply (int16_elements_inj e).
Qed.

Lemma decoding_is_lossless_witness :
  decodeAudioData LittleEndian [Byte.x00; Byte.x80]
  = Ok [Finite (-32768 # 32768)]
  ∧ [Byte.x00; Byte.x80] = [Byte.x00; Byte.x80].
Proof.
  assert (decodeAudioData LittleEndian [Byte.x00; Byte.x80]
          = Ok [Finite (-32768 # 32768)]) as Hd by reflexivity.
  split; [exact Hd|].
  exact (decoding_is_lossless LittleEndian [Byte.x00; Byte.x80]
           [Byte.x00; Byte.x80] _ Hd Hd).
Defined.

End AudioMore.

(** ** The audio button and the additional meanings *)

Module WideProperties.
Import Audio Wide MoreSpec Derived.

(** Unfolds the monad of these handlers down to the trace. *)
Ltac run_wide :=
  cbn [mbind mret W_bind W_ret perform complete attempt ensure fst snd app
       playPronunciation getAdditionalMeanings].

Lemma in_unit_range_samples e bytes :
  Forall in_unit_range ((fun s => Finite (s # 32768)) <$> int16_elements e bytes).
Proof.
  destruct (AudioProperties.int16_elements_spec e bytes) as [[_ Hall] _].
  apply Forall_fmap. eapply Forall_impl; [exact Hall|].
  intros v Hv. apply (AudioProperties.unit_range_of_int16 v Hv).
Qed.

(** The trace of the audio handler on a loaded word, by what the service and
    the decoder answer. *)
Lemma handleAudioPlay_trace order atob (s : AppState) base64Audio wd :
  wordData s = Some wd →
  handleAudioPlay order atob s base64Audio
  = (SetLoadingAudio true :: IssueSpeech (wd_word wd)
       :: match base64Audio with
          | Ok (Some (c :: base64)) =>
              match atob (c :: base64) with
              | Ok binaryString =>
                  match decodeAudioData order (decodeAudio binaryString) with
                  | Ok samples => [StartPlayback sampleRate samples]
                  | Throw _ => [Core (ConsoleError "Audio playback failed")]
                  end
              | Throw _ => [Core (ConsoleError "Audio playback failed")]
              end
          | Ok (Some []) | Ok None => []
          | Throw _ => [Core (ConsoleError "Audio playback failed")]
          end
       ++ [SetLoadingAudio false],
     Ok tt).
Proof.
  intros Hwd. unfold handleAudioPlay. rewrite Hwd.
  destruct base64Audio as [[[|c base64]|]|err]; run_wide; try reflexivity.
  destruct (atob (c :: base64)) as [binaryString|err]; run_wide;
    try reflexivity.
  destruct (decodeAudioData order (decodeAudio binaryString)); reflexivity.
Qed.

(** X11. The audio button cannot fail and cannot disturb anything.  Whatever
    the service, [atob] and the decoder do, the handler completes without
    throwing, starts one playback at most, and leaves the state as it found
    it but for the loading flag of the audio, which is down at the end;
    without a word on display it does nothing. *)
Theorem audio_button_is_contained order atob (s s0 : AppState) base64Audio :
  let handler := handleAudioPlay order atob s base64Audio in
  handler.2 = Ok tt
  ∧ length (played handler.1) ≤ 1
  ∧ perform_all handler.1 s0
    = match wordData s with
      | Some _ => apply_effect s0 (SetLoadingAudio false)
      | None => s0
      end.
Proof.
  intros handler. subst handler.
  destruct (wordData s) as [wd|] eqn:Hwd.
  - rewrite (handleAudioPlay_trace order atob s base64Audio wd Hwd).
    destruct base64Audio as [[[|c base64]|]|err];
      try (split; [reflexivity|split; [cbn; lia|reflexivity]]).
    destruct (atob (c :: base64)) as [binaryString|err];
      try (split; [reflexivity|split; [cbn; lia|reflexivity]]).
    destruct (decodeAudioData order (decodeAudio binaryString));
      (split; [reflexivity|split; [cbn; lia|reflexivity]]).
  - unfold handleAudioPlay. rewrite Hwd. cbn. split; [done|]. split; [lia|done].
Qed.

(** X12. What is played.  With a word on display, a playback is started
    exactly when the service returns a payload that is not empty, [atob]
    accepts it and it holds a whole number of samples, one at least; the
    buffer played then has one frame for every two bytes, at 24 kHz, and every
    sample of it lies between -1 and 1; nothing is logged.  When the service
    returns no payload nothing is played and nothing is logged; in every
    other case the failure is logged. *)
Theorem playback_plays_normalised_samples
    order atob (s : AppState) base64Audio wd :
  wordData s = Some wd →
  let t := (handleAudioPlay order atob s base64Audio).1 in
  Forall (Forall in_unit_range) (played t)
  ∧ (∀ base64 binaryString,
       base64Audio = Ok (Some base64) → base64 ≠ [] →
       atob base64 = Ok binaryString →
       Nat.even (length binaryString) = true → binaryString ≠ [] →
       ∃ samples,
         t = [SetLoadingAudio true; IssueSpeech (wd_word wd);
              StartPlayback 24000 samples; SetLoadingAudio false]
         ∧ length samples = length binaryString / 2)
  ∧ (base64Audio = Ok None ∨ base64Audio = Ok (Some []) →
     played t = [] ∧ logged t = [])
  ∧ (played t = [] ∨ logged t = []).
Proof.
  intros Hwd t. subst t.
  rewrite (handleAudioPlay_trace order atob s base64Audio wd Hwd). cbn [fst].
  split; [|split; [|split]].
  - destruct base64Audio as [[[|c base64]|]|err]; try by constructor.
    destruct (atob (c :: base64)) as [binaryString|err]; [|by constructor].
    rewrite AudioMore.decodeAudioData_value.
    destruct (Nat.even _); [|by constructor].
    destruct (decodeAudio binaryString); [by constructor|].
    repeat constructor. apply in_unit_range_samples.
  - intros base64 binaryString -> Hne Hatob Heven Hbin.
    destruct base64 as [|c base64]; [done|]. rewrite Hatob.
    rewrite AudioMore.decodeAudioData_value.
    pose proof (AudioMore.decodeAudio_keeps_binary_strings_length binaryString)
      as Hlen.
    rewrite Hlen, Heven.
    destruct (decodeAudio binaryString) as [|b bytes] eqn:Hbytes.
    { destruct binaryString; [done|discriminate Hlen]. }
    eexists. split; [reflexivity|].
    rewrite length_fmap, <- Hlen.
    by destruct (AudioProperties.int16_elements_spec order (b :: bytes))
      as [[-> _] _].
  - by intros [->| ->].
  - destruct base64Audio as [[[|c base64]|]|err];
      [by right| |by right|by left].
    destruct (atob (c :: base64)) as [binaryString|err]; [|by left].
    destruct (decodeAudioData order (decodeAudio binaryString));
      [by right|by left].
Qed.

Lemma playback_plays_normalised_samples_witness :
  let s := Samples.showing [] 0 [] in
  let atob := fun _ : jsstring => Ok [0; 128; 255; 127]%N in
  wordData s = Some Samples.gato
  ∧ Forall (Forall in_unit_range)
      (played (handleAudioPlay LittleEndian atob s (Ok (Some (str "AID/fw==")))).1).
Proof.
  intros s atob.
  assert (wordData s = Some Samples.gato) as Hwd by reflexivity.
  split; [exact Hwd|].
  exact (proj1 (playback_plays_normalised_samples LittleEndian atob s
                  (Ok (Some (str "AID/fw=="))) Samples.gato Hwd)).
Defined.

(** X13. Revealing the additional meanings, with a word on display.  The
    handler issues one request and never throws.  An answer without text
    counts as an empty batch, not as a failure: like a batch that parses, it
    is stored, and the button that reveals the meanings is no longer offered.
    When the call or the parsing fails, the failure is logged and the cell
    keeps what it held, so that the button stays as it was.  The loading flag
    is down at the end and nothing else is changed. *)
Theorem meanings_are_loaded_once parse (s s0 : AppState) response wd :
  wordData s = Some wd →
  let handler := handleLoadMoreMeanings parse s response in
  let final := perform_all handler.1 s0 in
  handler.2 = Ok tt
  ∧ omap (fun x => match x with
                   | IssueMeanings w l => Some (w, l)
                   | _ => None
                   end) handler.1
    = [(wd_word wd, targetLanguage s)]
  ∧ match meanings_of parse response with
    | Some batch =>
        final = apply_effect
                  (apply_update (setAdditionalMeanings (Some batch)) s0)
                  (SetLoadingMoreMeanings false)
        ∧ revealOffered final = false
        ∧ logged handler.1 = []
    | None =>
        final = apply_effect s0 (SetLoadingMoreMeanings false)
        ∧ revealOffered final = revealOffered s0
        ∧ logged handler.1 = ["Failed to load meanings"%string]
    end.
Proof.
  intros Hwd handler final. subst final handler.
  unfold handleLoadMoreMeanings, meanings_of. rewrite Hwd.
  destruct response as [[[|c t]|]|err]; run_wide;
    try destruct (parse (c :: t)); run_wide; by repeat split.
Qed.

Lemma meanings_are_loaded_once_witness :
  let s := Samples.showing [] 0 [] in
  wordData s = Some Samples.gato
  ∧ revealOffered
      (perform_all (handleLoadMoreMeanings (fun _ => Throw SyntaxError) s
                      (Ok None)).1 s) = false.
Proof.
  intros s.
  assert (wordData s = Some Samples.gato) as Hwd by reflexivity.
  split; [exact Hwd|].
  exact (proj1 (proj2 (proj2 (proj2 (meanings_are_loaded_once
                                       (fun _ => Throw SyntaxError) s s (Ok None)
                                       Samples.gato Hwd))))).
Defined.

End WideProperties.

(** ** Sessions *)

Module SessionProperties.
Import Gateway App Spec MoreSpec Derived Session.

Lemma chat_keeps_session (s : AppState) now_user now_bot response :
  let final := run (trace (handleChatSubmit s now_user now_bot response)) s in
  wordData final = wordData s ∧ gallery final = gallery s
  ∧ activeImageIndex final = activeImageIndex s
  ∧ imageFeedbacks final = imageFeedbacks s
  ∧ savedItems final = savedItems s.
Proof.
  unfold handleChatSubmit.
  destruct (truthy (trim (chatInput s))); [|done].
  destruct (wordData s) as [wd|] eqn:Hwd; [|done].
  destruct response as [[[|c t]|]|e]; run_handler; cbn; by rewrite ?Hwd.
Qed.

Lemma save_keeps_session (s : AppState) now_id now_ts :
  session_slice (run (trace (handleSaveItem s now_id now_ts)) s)
  = session_slice s.
Proof.
  unfold handleSaveItem. destruct (wordData s) as [wd|] eqn:Hwd; [|done].
  destruct (currentImage s) as [[|c url]|]; [done| |done].
  unfold session_slice. cbn. by rewrite Hwd.
Qed.

(** X15. The uniqueness of the pairs is an invariant of whole sessions: if
    the collection read from local storage holds no two items with the same
    word and image, then no sequence of actions, saves and removals included,
    leads to a collection that does. *)
Theorem sessions_keep_pairs_unique parse hydrated (actions : list action) :
  unique_pairs hydrated →
  unique_pairs (savedItems (steps parse actions (initialState hydrated))).
Proof.
  unfold steps.
  change hydrated with (savedItems (initialState hydrated)) at 1.
  generalize (initialState hydrated).
  induction actions as [|a actions IH]; intros s Hu; [done|].
  cbn [fold_left]. apply IH.
  destruct a as [q|definition imageBytes|imageBytes|idx|type
                 |now_id now_ts|id|input|now_user now_bot response];
    cbn [step].
  - done.
  - unfold handleSearch. destruct (truthy (trim (query s))); [|done].
    destruct definition as [[[|c t]|]|e]; run_handler;
      try destruct (parse (c :: t)) as [d|e'];
      destruct imageBytes as [[[|b bs]|]|e2]; run_handler; done.
  - unfold handleGenerateNewImage. destruct (wordData s); [|done].
    destruct imageBytes as [[[|b bs]|]|e]; run_handler; done.
  - by case_bool_decide.
  - unfold toggleFeedback. by destruct (currentImage s) as [[|c url]|].
  - unfold handleSaveItem. destruct (wordData s) as [wd|]; [|done].
    destruct (currentImage s) as [[|c url]|]; [done| |done].
    cbn. by apply CollectionProperties.save_updater_unique.
  - cbn. by apply CollectionProperties.remove_unique.
  - done.
  - by destruct (chat_keeps_session s now_user now_bot response)
      as (_ & _ & _ & _ & ->).
Qed.

Lemma sessions_keep_pairs_unique_witness :
  unique_pairs []
  ∧ unique_pairs
      (savedItems
         (steps Samples.parse_gato
            [TypeQuery (str "gato");
             SubmitSearch (Ok (Some (str "{}"))) (Ok (Some (str "AAAA")));
             ClickSave 1 1; ClickSave 2 2; ClickRemove (str "1")]
            (initialState []))).
Proof.
  assert (unique_pairs []) as Hu by constructor.
  split; [exact Hu|].
  exact (sessions_keep_pairs_unique Samples.parse_gato [] _ Hu).
Defined.

(** X16. The collection and the session do not touch each other.  Only a
    save or a removal changes the saved collection, and neither changes
    anything of the word under inspection: its definition, its gallery and
    active index, its additional meanings, its feedback, its transcript. *)
Theorem collection_and_session_are_separate parse (s : AppState) (a : action) :
  match a with
  | ClickSave _ _ | ClickRemove _ => session_slice (step parse s a) = session_slice s
  | _ => savedItems (step parse s a) = savedItems s
  end.
Proof.
  destruct a as [q|definition imageBytes|imageBytes|idx|type
                 |now_id now_ts|id|input|now_user now_bot response];
    cbn [step].
  - done.
  - unfold handleSearch. destruct (truthy (trim (query s))); [|done].
    destruct definition as [[[|c t]|]|e]; run_handler;
      try destruct (parse (c :: t)) as [d|e'];
      destruct imageBytes as [[[|b bs]|]|e2]; run_handler; done.
  - unfold handleGenerateNewImage. destruct (wordData s); [|done].
    destruct imageBytes as [[[|b bs]|]|e]; run_handler; done.
  - by case_bool_decide.
  - unfold toggleFeedback. by destruct (currentImage s) as [[|c url]|].
  - apply save_keeps_session.
  - done.
  - done.
  - by destruct (chat_keeps_session s now_user now_bot response)
      as (_ & _ & _ & _ & ->).
Qed.

Lemma question_answer_app (a b : list Role) :
  question_answer a → question_answer b → question_answer (a ++ b).
Proof.
  revert a. fix IH 1. intros [|[] [|[] a]]; cbn; try done.
  intros Ha Hb. by apply IH.
Qed.

(** One answered turn: the message typed, then submitted. *)
Lemma turn_effect parse (s : AppState) (t : turn) wd :
  wordData s = Some wd → trim (typed t) ≠ [] →
  let final := steps parse (turn_actions t) s in
  wordData final = Some wd
  ∧ chatInput final = []
  ∧ isChatSending final = false
  ∧ ∃ reply,
      chatMessages final
      = chatMessages s
        ++ [{| cm_id := Number_toString (at_user t); cm_role := user;
               cm_text := typed t |};
            {| cm_id := Number_toString (at_bot t + 1); cm_role := model;
               cm_text := reply |}]
      ∧ reply ≠ []
      ∧ (∀ c text, answer t = Some (c :: text) → reply = c :: text).
Proof.
  intros Hwd Hq%truthy_nonempty. cbn [steps turn_actions fold_left step].
  unfold handleChatSubmit. cbn [chatInput apply_update wordData].
  rewrite Hq, Hwd.
  destruct (answer t) as [[|c text]|]; run_handler; cbn;
    rewrite ?Hwd, <- ?app_assoc; cbn [app];
    (split; [done|split; [done|split; [done|]]]);
    eexists; (split; [reflexivity|split; [done|]]); by intros ? ? [= <- <-].
Qed.

(** X17. A conversation that the service answers stays a sequence of
    questions and answers.  With a word loaded, starting from a transcript
    in which every message of the user is followed by one of the assistant,
    any number of turns, each a message that is not blank and a response of
    the service, leaves such a transcript again, two messages longer for every
    turn; the input box is empty and the sending flag is down after the last
    one. *)
Theorem answered_turns_alternate parse (s : AppState) (turns : list turn) wd :
  wordData s = Some wd →
  question_answer (cm_role <$> chatMessages s) →
  Forall (fun t => trim (typed t) ≠ []) turns →
  let final := steps parse (concat (turn_actions <$> turns)) s in
  question_answer (cm_role <$> chatMessages final)
  ∧ length (chatMessages final) = length (chatMessages s) + 2 * length turns
  ∧ (turns ≠ [] → chatInput final = [] ∧ isChatSending final = false).
Proof.
  intros Hwd Hqa Hturns. revert s Hwd Hqa.
  induction Hturns as [|t turns Ht _ IH]; intros s Hwd Hqa final.
  { subst final. cbn. split; [done|]. split; [lia|done]. }
  subst final. cbn [fmap list_fmap concat]. unfold steps in *.
  rewrite fold_left_app.
  destruct (turn_effect parse s t wd Hwd Ht)
    as (Hwd' & Hin & Hsend & reply & Hmsgs & _).
  unfold steps in Hwd', Hin, Hsend, Hmsgs.
  set (s' := fold_left (step parse) (turn_actions t) s) in *.
  assert (question_answer (cm_role <$> chatMessages s')) as Hqa'.
  { rewrite Hmsgs, fmap_app. by apply question_answer_app. }
  destruct (IH s' Hwd' Hqa') as (Hfinal & Hlen & Hlast).
  split; [exact Hfinal|]. split.
  - rewrite Hlen, Hmsgs, length_app. cbn [length]. lia.
  - intros _. destruct turns as [|t' turns']; [by split|].
    by apply Hlast.
Qed.

Lemma answered_turns_alternate_witness :
  let s := Samples.showing [] 0 [] in
  let turns := [{| typed := str "Is this word formal?"; at_user := 1;
                   at_bot := 2; answer := Some (str "No.") |};
                {| typed := str "Give me a quiz."; at_user := 3;
                   at_bot := 4; answer := None |}] in
  wordData s = Some Samples.gato
  ∧ question_answer (cm_role <$> chatMessages s)
  ∧ Forall (fun t => trim (typed t) ≠ []) turns
  ∧ length (chatMessages
              (steps Samples.parse_gato (concat (turn_actions <$> turns)) s))
    = 4.
Proof.
  intros s turns.
  assert (wordData s = Some Samples.gato) as Hwd by reflexivity.
  assert (question_answer (cm_role <$> chatMessages s)) as Hqa by exact I.
  assert (Forall (fun t => trim (typed t) ≠ []) turns) as Hturns
    by (repeat constructor; vm_compute; discriminate).
  split; [exact Hwd|]. split; [exact Hqa|]. split; [exact Hturns|].
  exact (proj1 (proj2 (answered_turns_alternate Samples.parse_gato s turns
                         Samples.gato Hwd Hqa Hturns))).
Defined.

End SessionProperties.

(** ** The story renderer, continued *)

Module RendererMore.
Import Renderer RenderSpec.

Lemma split_loop_plain lit s :
  ¬ holds_marker s → split_loop lit s = [lit ++ s].
Proof.
  apply (split_loop_elim (fun lit s parts =>
    ¬ holds_marker s → parts = [lit ++ s])).
  - intros l _. by rewrite app_nil_r.
  - intros l c s' token rest Hm _ _ Hplain. exfalso. apply Hplain.
    apply RendererProperties.match_marker_Some in Hm as [-> _].
    by exists [], token, rest.
  - intros l c s' _ IH _ Hplain. rewrite IH, <- app_assoc; [done|].
    intros (a & token & b & ->). apply Hplain. by exists (c :: a), token, b.
Qed.

(** X20. A body in which no marker is complete, two opening braces with two
    closing braces somewhere after them, is rendered as it is, in one span
    and without a blank: the empty body, a body without braces, a body whose
    braces are never closed. *)
Theorem body_without_marker_is_one_span (content : jsstring) :
  ¬ holds_marker content → renderStoryContent content = [Span content].
Proof.
  intros Hplain. unfold renderStoryContent, split.
  rewrite (split_loop_plain [] content Hplain). cbn [fmap list_fmap app].
  by rewrite (RendererProperties.render_part_plain content Hplain).
Qed.

Lemma body_without_marker_is_one_span_witness :
  ¬ holds_marker []
  ∧ renderStoryContent [] = [Span []].
Proof.
  assert (¬ holds_marker []) as Hplain.
  { intros (a & token & b & Hab). by destruct a. }
  split; [exact Hplain|].
  exact (body_without_marker_is_one_span [] Hplain).
Defined.

End RendererMore.

(** ** Sessions in which handlers overlap *)

Module InterleavedProperties.
Import Gateway App Spec MoreSpec Derived Interleaved.

(** The three handlers that suspend are their parts, one after the other. *)
Lemma handleSearch_parts parse (s : AppState) definition imageBytes :
  trace (handleSearch parse s definition imageBytes)
  = (search_start s).1
    ++ match (search_start s).2 with
       | Some _ =>
           (search_after_details parse definition).1
           ++ match (search_after_details parse definition).2 with
              | Some _ => search_after_image imageBytes
              | None => []
              end
       | None => []
       end.
Proof.
  unfold handleSearch, search_start, search_after_details, search_after_image.
  destruct (truthy (trim (query s))); cbn [negb]; [|done].
  destruct definition as [[[|c t]|]|e]; run_handler;
    try destruct (parse (c :: t)) as [d|e'];
    destruct imageBytes as [[[|b bs]|]|e2]; run_handler; reflexivity.
Qed.

Lemma handleGenerateNewImage_parts (s : AppState) imageBytes :
  trace (handleGenerateNewImage s imageBytes)
  = (variation_start s).1
    ++ match (variation_start s).2 with
       | Some _ => variation_after_image imageBytes
       | None => []
       end.
Proof.
  unfold handleGenerateNewImage, variation_start, variation_after_image.
  destruct (wordData s) as [wd|]; [|done].
  destruct imageBytes as [[[|b bs]|]|e]; run_handler; reflexivity.
Qed.

Lemma handleChatSubmit_parts (s : AppState) now_user now_bot response :
  trace (handleChatSubmit s now_user now_bot response)
  = (chat_start s now_user).1
    ++ match (chat_start s now_user).2 with
       | Some _ => chat_after_response now_bot response
       | None => []
       end.
Proof.
  unfold handleChatSubmit, chat_start, chat_after_response.
  destruct (truthy (trim (chatInput s))); [|done].
  destruct (wordData s) as [wd|]; [|done].
  destruct response as [[[|c t]|]|e]; run_handler; reflexivity.
Qed.

(** A search whose answers come before anything else happens is the search
    run to completion. *)
Lemma search_without_overlap parse (s : AppState) definition imageBytes :
  cells (occur_all parse
           [SearchSubmitted; DetailsSettled 0 definition;
            ImageSettled 0 imageBytes]
           {| cells := s; waiting := [] |})
  = Session.step parse s (Session.SubmitSearch definition imageBytes).
Proof.
  cbn [Session.step]. rewrite handleSearch_parts.
  unfold occur_all. cbn [fold_left occur cells waiting started app].
  unfold search_start, search_after_details.
  destruct (truthy (trim (query s))); cbn [negb]; [|done].
  destruct definition as [[[|c t]|]|e]; run_handler;
    try destruct (parse (c :: t)) as [d|e'];
    destruct imageBytes as [[[|b bs]|]|e2]; reflexivity.
Qed.

(** The overlap that the atomic sessions leave out is in these: a variation
    requested for one word and answered after the reset of the next search
    puts its image into the gallery of a session without a definition, the
    active index past it. *)
Example late_variation_lands_after_reset :
  let sys := occur_all Samples.parse_gato
               [QueryTyped (str "gato"); SearchSubmitted;
                DetailsSettled 0 (Ok (Some (str "{}")));
                ImageSettled 0 (Ok (Some (str "AAAA")));
                VariationRequested; SearchSubmitted;
                ImageSettled 0 (Ok (Some (str "BBBB")))]
               (mounted []) in
  wordData (cells sys) = None
  ∧ gallery (cells sys) = [Samples.img "BBBB"]
  ∧ activeImageIndex (cells sys) = 1
  ∧ waiting sys = [SearchAwaitsDetails].
Proof. by vm_compute. Qed.

Lemma data_url_prefix b bs : data_url (image_prefix ++ b :: bs).
Proof. by exists (b :: bs). Qed.

(** Closes a goal about cells that the events left as they were. *)
Ltac same_cells H :=
  unfold references_are_data_urls in *; cbn; exact H.

Lemma occur_keeps_references parse hydrated (sys : system) (o : occurrence) :
  references_are_data_urls hydrated (cells sys) →
  references_are_data_urls hydrated (cells (occur parse sys o)).
Proof.
  intros Hinv.
  destruct o as [q| | |idx|type|now_id now_ts|id|input|now_user
                 |i definition|i imageBytes|i now_bot response];
    cbn [occur].
  - same_cells Hinv.
  - unfold search_start. destruct (truthy (trim (query (cells sys))));
      cbn [negb]; [|same_cells Hinv].
    destruct Hinv as (_ & _ & Hsaved).
    unfold references_are_data_urls. cbn. split; [constructor|].
    split; [|done]. intros url. rewrite lookup_empty. by intros [? ?].
  - unfold variation_start. destruct (wordData (cells sys)); same_cells Hinv.
  - case_bool_decide; [|done]. same_cells Hinv.
  - unfold toggleFeedback.
    destruct (currentImage (cells sys)) as [[|c url]|] eqn:Himg;
      try same_cells Hinv.
    destruct Hinv as (Hurls & Hkeys & Hsaved).
    unfold references_are_data_urls. cbn. split; [done|]. split; [|done].
    intros url' Hsome. unfold toggleFeedback_updater in Hsome.
    destruct (decide (url' = c :: url)) as [->|Hne].
    + apply (Forall_lookup_1 _ _ _ _ Hurls Himg).
    + apply Hkeys. case_decide.
      * by rewrite lookup_delete_ne in Hsome.
      * by rewrite lookup_insert_ne in Hsome.
  - unfold handleSaveItem.
    destruct (wordData (cells sys)) as [wd|]; [|same_cells Hinv].
    destruct (currentImage (cells sys)) as [[|c url]|] eqn:Himg;
      try same_cells Hinv.
    destruct Hinv as (Hurls & Hkeys & Hsaved).
    unfold references_are_data_urls. cbn. split; [done|]. split; [done|].
    unfold save_updater. destruct (existsb _ _); [done|].
    constructor; [|done]. right. cbn.
    apply (Forall_lookup_1 _ _ _ _ Hurls Himg).
  - destruct Hinv as (Hurls & Hkeys & Hsaved).
    unfold references_are_data_urls. cbn. split; [done|]. split; [done|].
    induction Hsaved as [|x l Hx _ IH]; [constructor|].
    cbn [List.filter]. destruct (negb _); [by constructor|done].
  - same_cells Hinv.
  - unfold chat_start. destruct (truthy _); [|same_cells Hinv].
    destruct (wordData (cells sys)); same_cells Hinv.
  - destruct (waiting sys !! i) as [[]|]; try done.
    unfold search_after_details.
    destruct definition as [[[|c t]|]|e]; run_handler;
      try destruct (parse (c :: t)) as [d|e']; same_cells Hinv.
  - destruct (waiting sys !! i) as [[]|]; try done.
    + unfold search_after_image.
      destruct imageBytes as [[[|b bs]|]|e]; run_handler; try same_cells Hinv.
      destruct Hinv as (_ & Hkeys & Hsaved).
      unfold references_are_data_urls. cbn. split; [|done].
      repeat constructor. apply data_url_prefix.
    + unfold variation_after_image.
      destruct imageBytes as [[[|b bs]|]|e]; run_handler; try same_cells Hinv.
      destruct Hinv as (Hurls & Hkeys & Hsaved).
      unfold references_are_data_urls. cbn. split; [|done].
      apply Forall_app. split; [done|]. repeat constructor.
      apply data_url_prefix.
  - destruct (waiting sys !! i) as [[]|]; try done.
    unfold chat_after_response.
    destruct response as [[[|c t]|]|e]; run_handler; same_cells Hinv.
Qed.

(** X14. Every image reference that the component holds was made by the
    gateway, however the actions of the user and the answers of the service
    fall in time.  From the moment the component is mounted, with handlers
    suspended at their awaits and resumed in any order, a search started
    while another is pending, an answer landing after a reset: every entry of
    the gallery, every key of the feedback map and the image of every item
    saved since is a data URL with a payload that is not empty.  So no empty
    reference is ever displayed, rated or saved. *)
Theorem references_are_made_by_the_gateway parse hydrated
    (os : list occurrence) :
  references_are_data_urls hydrated
    (cells (occur_all parse os (mounted hydrated))).
Proof.
  unfold occur_all.
  assert (references_are_data_urls hydrated (cells (mounted hydrated)))
    as Hinit.
  { unfold references_are_data_urls. cbn. split; [constructor|]. split.
    - intros url. rewrite lookup_empty. by intros [? ?].
    - apply Forall_forall. intros item Hin. by left. }
  revert Hinit. generalize (mounted hydrated).
  induction os as [|o os IH]; intros sys Hinv; [done|].
  cbn [fold_left]. apply IH. by apply occur_keeps_references.
Qed.

End InterleavedProperties.
